(** * The Veo 3 character-consistency notebook

    A shallow embedding of [experiments/veo3-character-consistency/workflow.ipynb]:
    the "Validate Inputs" cell, the two stage calls and the display cells,
    run in notebook order over a model of the local disk.

    The notebook touches the outside world through [os.path.isdir],
    [os.listdir], [os.path.isfile], [os.path.join], [os.path.exists],
    [print], [logger.info], IPython's [display], and the two stage functions
    it imports from [image_generator] and [video_generator].  Each of these
    is modelled below; every call is recorded in a trace, so that ordering
    properties of a run can be stated.  The first code cell only imports
    and configures logging; it has no counterpart here.  A library call
    that never comes back (opening a FIFO nobody writes to) is outside the
    model: a run is described up to its result or its first exception.

    The two stage functions are parameters of the notebook.  The stages
    they run are modelled separately, from the specification, in
    [Pipeline]. *)

From Stdlib Require Import String Ascii List Bool Arith Lia.
From Stdlib Require Import DecimalString.
Import ListNotations.
Open Scope string_scope.
Open Scope list_scope.

(** ** Path strings (posixpath) *)

Module Path.

Definition sep : ascii := "/"%char.

Definition is_sep (c : ascii) : bool := Ascii.eqb c sep.

(** [b.startswith("/")] *)
Definition startswith_sep (b : string) : bool :=
  match b with
  | String c _ => is_sep c
  | EmptyString => false
  end.

(** [path.endswith("/")] *)
Fixpoint endswith_sep (a : string) : bool :=
  match a with
  | EmptyString => false
  | String c EmptyString => is_sep c
  | String _ rest => endswith_sep rest
  end.

Definition is_empty (a : string) : bool :=
  match a with
  | EmptyString => true
  | String _ _ => false
  end.

(** [posixpath.join(a, b)] with a single component [b]:
<<
    if b.startswith(sep):            path = b
    elif not path or path.endswith(sep): path += b
    else:                            path += sep + b
>> *)
Definition join (a b : string) : string :=
  if startswith_sep b then b
  else if is_empty a || endswith_sep a then a ++ b
  else a ++ String sep b.

(** Does the string mention the separator at all? *)
Fixpoint has_sep (s : string) : bool :=
  match s with
  | EmptyString => false
  | String c rest => is_sep c || has_sep rest
  end.

(** The names a directory entry can carry: not empty, not [.] or [..],
    and free of the separator. *)
Definition valid_name (f : string) : bool :=
  negb (is_empty f) && negb (String.eqb f ".") && negb (String.eqb f "..")
  && negb (has_sep f).

End Path.

(** ** The disk *)

Module Disk.
Import Path.

(** A node of the file tree.  [Special] stands for whatever is neither a
    regular file nor a directory (device, FIFO, socket).  The model has no
    symbolic links. *)
#[local] Set Warnings "-register-all".
Inductive node : Type :=
| File (content : string)
| Special
| Dir (entries : list (string * node)).
#[local] Set Warnings "register-all".

Record filesystem : Type := MkFs {
  fs_root : list (string * node);   (* the entries of [/] *)
  fs_cwd : string                   (* the working directory, an absolute path *)
}.

Fixpoint lookup (f : string) (es : list (string * node)) : option node :=
  match es with
  | [] => None
  | (g, n) :: rest => if String.eqb f g then Some n else lookup f rest
  end.

(** Resolution keeps the chain of directories entered so far, innermost
    first, so that [..] can step back; the chain is never empty and ends
    in the root. *)
Definition chain := list node.

(** Resolve one component from the directory on top of the chain. *)
Definition resolve (stk : chain) (comp : string) : option chain :=
  if is_empty comp || String.eqb comp "." then Some stk
  else if String.eqb comp ".." then
    Some (match stk with
          | _ :: (_ :: _) as up => up
          | _ => stk
          end)
  else
    match stk with
    | Dir es :: _ =>
        match lookup comp es with
        | Some n => Some (n :: stk)
        | None => None
        end
    | _ => None
    end.

(** Read a path left to right.  [comp] is the component read so far; a
    separator resolves it, and what it resolves to must be a directory for
    the walk to go on. *)
Fixpoint scan (stk : chain) (comp : string) (p : string) : option (chain * string) :=
  match p with
  | EmptyString => Some (stk, comp)
  | String c rest =>
      if is_sep c then
        match resolve stk comp with
        | Some (Dir es :: up) => scan (Dir es :: up) "" rest
        | _ => None
        end
      else scan stk (comp ++ String c "") rest
  end.

Definition walk (stk : chain) (p : string) : option chain :=
  match scan stk "" p with
  | Some (stk', comp) => resolve stk' comp
  | None => None
  end.

Definition root_chain (fs : filesystem) : chain := [Dir (fs_root fs)].

(** Where resolution of [p] starts: the root for an absolute path, the
    working directory otherwise. *)
Definition start (fs : filesystem) (p : string) : option chain :=
  if startswith_sep p then Some (root_chain fs)
  else walk (root_chain fs) (fs_cwd fs).

(** [os.stat(p)], as far as the notebook looks at it: the node the path
    names, if any.  The empty path names nothing. *)
Definition stat (fs : filesystem) (p : string) : option node :=
  if is_empty p then None
  else
    match start fs p with
    | Some stk =>
        match walk stk p with
        | Some (n :: _) => Some n
        | _ => None
        end
    | None => None
    end.

Definition isdir (fs : filesystem) (p : string) : bool :=
  match stat fs p with
  | Some (Dir _) => true
  | _ => false
  end.

Definition isfile (fs : filesystem) (p : string) : bool :=
  match stat fs p with
  | Some (File _) => true
  | _ => false
  end.

Definition exists_ (fs : filesystem) (p : string) : bool :=
  match stat fs p with
  | Some _ => true
  | None => false
  end.

(** The names of a directory's entries, in directory order. *)
Definition names (es : list (string * node)) : list string := map fst es.

Definition is_regular (n : node) : bool :=
  match n with
  | File _ => true
  | _ => false
  end.

(** The regular files of a directory: the names of its entries that are
    [File]s.  Entries of subdirectories are not looked at. *)
Definition regular_files (es : list (string * node)) : list string :=
  names (filter (fun e => is_regular (snd e)) es).

(** Well-formed directories: entry names are valid and pairwise distinct,
    all the way down. *)
Fixpoint distinct (l : list string) : bool :=
  match l with
  | [] => true
  | x :: rest => negb (existsb (String.eqb x) rest) && distinct rest
  end.

Fixpoint wf_node (n : node) : bool :=
  match n with
  | Dir es =>
      forallb valid_name (names es) && distinct (names es)
      && (fix all (l : list (string * node)) : bool :=
            match l with
            | [] => true
            | (_, c) :: rest => wf_node c && all rest
            end) es
  | _ => true
  end.

Definition wf (fs : filesystem) : bool := wf_node (Dir (fs_root fs)).

(** A chain of well-formed nodes. *)
Definition wf_chain (stk : chain) : Prop := Forall (fun n => wf_node n = true) stk.

End Disk.

(** ** Python effects: exceptions, list objects, the trace *)

Module Py.
Import Path Disk.

Inductive exn : Type :=
| ValueError (msg : string)
| FileNotFoundError (path : string)
| NotADirectoryError (path : string)
| Raised (name msg : string).   (* any other exception, by class name *)

(** A Python list is an object: a name bound to it holds a reference, and
    a callee that is handed the reference can change the list in place. *)
Definition ref := nat.
Definition heap := list (list string).

(** What a run does that can be observed from outside, in order. *)
Inductive event : Type :=
| OsIsdir (p : string)
| OsListdir (p : string)
| OsIsfile (p : string)
| OsExists (p : string)
| Print (line : string)
| LogInfo (msg : string)
| OpenRead (p : string)
| DisplayImage (p : string) (width : nat)
| DisplayVideo (p : string) (width : nat)
| CallGenerateImages (image_files : ref) (contents : list string) (scenario : string)
| CallGenerateVideo (person_path outpainted_image_path : string).

Record world : Type := MkWorld {
  disk : filesystem;
  objects : heap;
  trace : list event      (* oldest first *)
}.

Definition M (A : Type) : Type := world -> (exn + A) * world.

Definition ret {A : Type} (a : A) : M A := fun w => (inr a, w).

Definition raise {A : Type} (e : exn) : M A := fun w => (inl e, w).

Definition bind {A B : Type} (m : M A) (k : A -> M B) : M B :=
  fun w =>
    match m w with
    | (inr a, w') => k a w'
    | (inl e, w') => (inl e, w')
    end.

Definition emit (e : event) : M unit :=
  fun w => (inr tt, MkWorld (disk w) (objects w) (trace w ++ [e])).

Declare Scope py_scope.
Delimit Scope py_scope with py.
Notation "x <- m ;; k" := (bind m (fun x => k))
  (at level 61, m at next level, right associativity) : py_scope.
Notation "m ;;; k" := (bind m (fun _ => k))
  (at level 61, right associativity) : py_scope.
Open Scope py_scope.

(** *** os and os.path *)

Definition os_path_isdir (p : string) : M bool :=
  emit (OsIsdir p) ;;; fun w => (inr (isdir (disk w) p), w).

Definition os_path_isfile (p : string) : M bool :=
  emit (OsIsfile p) ;;; fun w => (inr (isfile (disk w) p), w).

Definition os_path_exists (p : string) : M bool :=
  emit (OsExists p) ;;; fun w => (inr (exists_ (disk w) p), w).

Definition os_listdir (p : string) : M (list string) :=
  emit (OsListdir p) ;;;
  fun w =>
    match stat (disk w) p with
    | Some (Dir es) => (inr (names es), w)
    | Some _ => (inl (NotADirectoryError p), w)
    | None => (inl (FileNotFoundError p), w)
    end.

(** *** list objects *)

Definition new_list (l : list string) : M ref :=
  fun w => (inr (length (objects w)),
            MkWorld (disk w) (objects w ++ [l]) (trace w)).

Definition deref (r : ref) : M (list string) :=
  fun w => (inr (nth r (objects w) []), w).

(** *** print, logging, IPython.display *)

Definition print (line : string) : M unit := emit (Print line).

Definition logger_info (msg : string) : M unit := emit (LogInfo msg).

(** [str(n)] for a natural number. *)
Definition str_nat (n : nat) : string := NilEmpty.string_of_uint (Nat.to_uint n).

(** [display(Image(filename=p, width=w))].  The [Image] constructor
    decides on the format from the file name, refuses the formats it
    cannot embed, and reads the file; which names it refuses depends on
    the IPython at hand, and what reading gives depends on the operating
    system (a device node reads, a missing file does not).  None of this
    is code of the repository: the exception the call raises on a disk, if
    it raises one, is left to a parameter. *)
Definition image_oracle : Type := filesystem -> string -> option exn.

Definition display_image (raises : image_oracle) (p : string) (width : nat) : M unit :=
  fun w =>
    match raises (disk w) p with
    | Some e => (inl e, w)
    | None => emit (DisplayImage p width) w
    end.

(** [data.startswith(("http:", "https:"))] *)
Definition is_url (p : string) : bool :=
  String.prefix "http:" p || String.prefix "https:" p.

(** [display(Video(p, embed=True, width=w))] for a path [p] that exists.
    The constructor keeps a string that starts like a URL as a URL and any
    other existing path as a file name; nothing is read yet.  The file is
    opened when [display] renders the object, and an exception raised
    there is reported by IPython's formatter, not raised from the cell:
    the call always returns. *)
Definition display_video (p : string) (width : nat) : M unit :=
  (if is_url p then ret tt else emit (OpenRead p)) ;;;
  emit (DisplayVideo p width).

(** *** stage functions

    A function imported from another module of the repository runs on the
    disk and on the list objects; it does not see the trace. *)
Definition stage (A : Type) : Type :=
  filesystem -> heap -> (exn + A) * filesystem * heap.

Definition call {A : Type} (e : event) (f : stage A) : M A :=
  emit e ;;;
  fun w =>
    match f (disk w) (objects w) with
    | (r, d, h) => (r, MkWorld d h (trace w))
    end.

End Py.

(** ** The notebook *)

Module Notebook.
Import Path Disk Py.

Section Cells.

(** [config.INPUT_DIR], and the two functions imported from
    [image_generator] and [video_generator]. *)
Variable INPUT_DIR : string.
Variable generate_images_and_select_best :
  ref -> string -> stage (string * string * list string).
Variable generate_video_from_best_image :
  string -> string -> stage (option string).
(** What IPython's [Image] raises. *)
Variable image_raises : image_oracle.

Definition SCENARIO : string := "a man wearing a spiderman outfit in the desert".

Definition not_a_directory (loc : string) : exn :=
  ValueError ("The provided image location is not a valid directory: " ++ loc).

Definition no_image_files (loc : string) : exn :=
  ValueError ("No image files found in the directory: " ++ loc).

(** [f"Found {n} reference images in '{loc}'."] *)
Definition found_message (n : nat) (loc : string) : string :=
  "Found " ++ str_nat n ++ " reference images in '" ++ loc ++ "'.".

(** [[os.path.join(loc, f) for f in names if os.path.isfile(os.path.join(loc, f))]] *)
Fixpoint comprehension (loc : string) (entries : list string) : M (list string) :=
  match entries with
  | [] => ret []
  | f :: rest =>
      b <- os_path_isfile (join loc f) ;;
      tl <- comprehension loc rest ;;
      ret (if b then join loc f :: tl else tl)
  end.

(** The "Validate Inputs" part of the configuration cell. *)
Definition validate_inputs (IMAGE_LOCATION : string) : M ref :=
  ok <- os_path_isdir IMAGE_LOCATION ;;
  if negb ok then raise (not_a_directory IMAGE_LOCATION)
  else
    entries <- os_listdir IMAGE_LOCATION ;;
    files <- comprehension IMAGE_LOCATION entries ;;
    image_files <- new_list files ;;
    found <- deref image_files ;;
    match found with
    | [] => raise (no_image_files IMAGE_LOCATION)
    | _ :: _ =>
        print (found_message (length found) IMAGE_LOCATION) ;;;
        ret image_files
    end.

(** What the loader hands back: the list that the reference it returns
    names, or the exception it raised. *)
Definition load_reference_set (IMAGE_LOCATION : string) (w : world) : exn + list string :=
  match validate_inputs IMAGE_LOCATION w with
  | (inr image_files, w') => inr (nth image_files (objects w') [])
  | (inl e, _) => inl e
  end.

Definition cell_configure : M ref := validate_inputs INPUT_DIR.

Definition log_step1 : string :=
  "Step 1: Generating images and selecting the best candidate...".
Definition log_best (outpainted_image_path : string) : string :=
  "Best image selected and outpainted to: " ++ outpainted_image_path.
Definition log_assets (person_path : string) : string :=
  "Generated assets stored in: " ++ person_path.

(** "Generate and Select Best Image".  The trace records the call with
    its arguments; for the list argument it records both the reference and
    what the list holds when the call is made. *)
Definition cell_generate (image_files : ref) : M (string * string * list string) :=
  logger_info log_step1 ;;;
  contents <- deref image_files ;;
  out <- call (CallGenerateImages image_files contents SCENARIO)
              (generate_images_and_select_best image_files SCENARIO) ;;
  let '(person_path, outpainted_image_path, candidate_image_paths) := out in
  logger_info (log_best outpainted_image_path) ;;;
  logger_info (log_assets person_path) ;;;
  ret out.

(** "Display Candidate Images" *)
Fixpoint cell_display_candidates (candidate_image_paths : list string) : M unit :=
  match candidate_image_paths with
  | [] => ret tt
  | path :: rest => display_image image_raises path 256 ;;; cell_display_candidates rest
  end.

(** "Display Final Outpainted Image" *)
Definition cell_display_outpainted (outpainted_image_path : string) : M unit :=
  display_image image_raises outpainted_image_path 600.

(** [str(x)] for a value that is a string or [None]. *)
Definition str_opt (x : option string) : string :=
  match x with
  | Some s => s
  | None => "None"
  end.

Definition log_step2 : string := "Step 2: Generating video from the best image...".
Definition log_video (video_path : option string) : string :=
  "Successfully generated video: " ++ str_opt video_path.

(** "Generate Video" *)
Definition cell_video (person_path outpainted_image_path : string) : M (option string) :=
  logger_info log_step2 ;;;
  video_path <- call (CallGenerateVideo person_path outpainted_image_path)
                     (generate_video_from_best_image person_path outpainted_image_path) ;;
  logger_info (log_video video_path) ;;;
  ret video_path.

Definition newline : string := String (ascii_of_nat 10) "".
Definition final_video_banner : string := newline ++ "Final Generated Video:".
Definition fallback_message : string := newline ++ "Could not display the final video.".

(** The condition of the last cell, [video_path and os.path.exists(video_path)]:
    [and] does not evaluate its right operand when the left one is falsy,
    and [None] and the empty string are falsy.  The result is the path to
    show when the condition holds. *)
Definition video_guard (video_path : option string) : M (option string) :=
  match video_path with
  | None => ret None
  | Some p =>
      if is_empty p then ret None
      else
        found <- os_path_exists p ;;
        ret (if found then Some p else None)
  end.

(** "Display Final Video" *)
Definition cell_display_video (video_path : option string) : M unit :=
  guard <- video_guard video_path ;;
  match guard with
  | Some p =>
      print final_video_banner ;;;
      display_video p 600
  | None => print fallback_message
  end.

(** The cells, top to bottom; the first exception stops the run. *)
Definition run_all : M unit :=
  image_files <- cell_configure ;;
  out <- cell_generate image_files ;;
  let '(person_path, outpainted_image_path, candidate_image_paths) := out in
  cell_display_candidates candidate_image_paths ;;;
  cell_display_outpainted outpainted_image_path ;;;
  video_path <- cell_video person_path outpainted_image_path ;;
  cell_display_video video_path.

End Cells.

End Notebook.

(** ** A sample disk *)

Module Demo.
Import Path Disk Py Notebook.

(** [/data/refs] holds three regular files (one of them not an image), a
    subdirectory and a FIFO; [/data/empty] holds only a subdirectory;
    [/data/docs] holds no image at all. *)
Definition demo_disk : filesystem :=
  MkFs
    [("data",
      Dir [("refs",
            Dir [("a.png", File "A"); ("sub", Dir [("c.png", File "C")]);
                 ("notes.txt", File "n"); ("pipe", Special); ("b.jpg", File "B")]);
           ("empty", Dir [("sub2", Dir [("x.png", File "X")])]);
           ("docs", Dir [("readme.md", File "r"); ("run.sh", File "s")])]);
     ("out",
      Dir [("c0.png", File "0"); ("c1.png", File "1"); ("wide.png", File "W");
           ("clip.mp4", File "V")])]
    "/data".

Definition demo_world : world := MkWorld demo_disk [] [].

(** [name.lower().endswith((".png", ".jpg"))], a stand-in for whatever
    tells images from other files. *)
Fixpoint ends_with (suffix s : string) : bool :=
  String.eqb s suffix
  || match s with
     | EmptyString => false
     | String _ rest => ends_with suffix rest
     end.

Definition looks_like_image (name content : string) : bool :=
  ends_with ".png" name || ends_with ".jpg" name.

(** Stand-ins for the two stage functions: they return paths that are on
    the sample disk, and the first one allocates a list of its own. *)
Definition demo_generate (image_files : ref) (scenario : string)
  : stage (string * string * list string) :=
  fun d h =>
    (inr ("/out", "/out/wide.png", ["/out/c0.png"; "/out/c1.png"]), d, h ++ [[scenario]]).

Definition demo_video (person_path outpainted_image_path : string)
  : stage (option string) :=
  fun d h => (inr (Some (join person_path "clip.mp4")), d, h).

(** A stage that fails. *)
Definition demo_broken {A : Type} (name msg : string) : stage A :=
  fun d h => (inl (Raised name msg), d, h).

(** A stand-in for [Image]: it raises for whatever is not a regular file. *)
Definition demo_image : image_oracle :=
  fun fs p => if isfile fs p then None else Some (FileNotFoundError p).



End Demo.

(** ** Observing a run *)

Module Observe.
Import Path Disk Py Notebook.

(** The world after some more events, with the disk and the list objects
    as they were. *)
Definition logged (w : world) (t : list event) : world :=
  MkWorld (disk w) (objects w) (trace w ++ t).

Definition is_stage_call (e : event) : bool :=
  match e with
  | CallGenerateImages _ _ _ | CallGenerateVideo _ _ => true
  | _ => false
  end.

(** The calls to the stage functions in a trace, in order. *)
Definition stage_calls (t : list event) : list event := filter is_stage_call t.

(** The exception at which showing [paths] one after the other stops, if
    it does: the first one that [Image] raises. *)
Fixpoint display_failure (raises : image_oracle) (fs : filesystem)
    (paths : list string) : option exn :=
  match paths with
  | [] => None
  | p :: rest =>
      match raises fs p with
      | Some e => Some e
      | None => display_failure raises fs rest
      end
  end.

(** The events of showing the images [paths], up to the first failure. *)
Fixpoint display_events (raises : image_oracle) (fs : filesystem)
    (paths : list (string * nat)) : list event :=
  match paths with
  | [] => []
  | (p, width) :: rest =>
      match raises fs p with
      | Some _ => []
      | None => DisplayImage p width :: display_events raises fs rest
      end
  end.

(** The events of [display(Video(p, embed=True, width=600))]. *)
Definition video_events (p : string) : list event :=
  (if is_url p then [] else [OpenRead p]) ++ [DisplayVideo p 600].

(** The events of the second cell, once the stage call [g] has returned,
    and of the two display cells after it. *)
Definition shown (raises : image_oracle) (g : event) (pp op : string)
    (cs : list string) (d : filesystem) : list event :=
  [LogInfo log_step1; g; LogInfo (log_best op); LogInfo (log_assets pp)]
  ++ display_events raises d (map (fun p => (p, 256)) cs ++ [(op, 600)]).

(** Code that neither calls a stage function nor touches the disk or the
    list objects. *)
Definition quiet {A : Type} (m : M A) : Prop :=
  forall w, exists t, snd (m w) = logged w t /\ stage_calls t = [].

End Observe.

(** ** The stages behind the two stage functions *)

Module Pipeline.

(** Modelled from the spec: the stages that
    [image_generator.generate_images_and_select_best] and
    [video_generator.generate_video_from_best_image] run are not among the
    sources; only the notebook that calls the two functions is.  What
    follows is the pipeline as sections 3, 4, 6 and 7 of the specification
    describe it: the artifacts, the three provider capabilities as
    black-box collaborators, one function per stage, and the state machine
    that advances a run by one stage at a time. *)

Record reference_image : Type := MkReference {
  ref_path : string;
  ref_bytes : string
}.

Record image : Type := MkImage {
  img_width : nat;
  img_height : nat;
  img_pixels : string
}.

(** An aspect ratio [across : up]. *)
Record ratio : Type := MkRatio { across : nat; up : nat }.

Definition square : ratio := MkRatio 1 1.
Definition widescreen : ratio := MkRatio 16 9.


(** A facial composite profile: attribute name to short value. *)
Definition profile : Type := list (string * string).

(** A candidate: a generated image plus its identifier. *)
Record candidate : Type := MkCandidate {
  cand_id : nat;
  cand_image : image
}.

Inductive cause : Type :=
| InputValidationError
| SchemaViolation
| GenerationEmpty
| GenerationFailed
| SelectionAmbiguous
| OutpaintFailed
| VideoGenerationFailed.

Inductive stage_name : Type :=
| Describing | Synthesizing | Generating | Selecting | Outpainting | Rendering.

(** The three provider capabilities.  A provider answers with a value or
    with an error message. *)
Record providers : Type := MkProviders {
  (* vision-language service: a structured record (or output that does not
     parse), a paragraph, a raw answer naming the selected candidate *)
  analyse : reference_image -> option (list (string * option string));
  summarise : list profile -> string;
  choose : list candidate -> list reference_image -> string;
  (* image service: reference images, guidance text, scenario, target
     ratio and candidate count; an image and a target ratio *)
  synthesise : list reference_image -> string -> string -> ratio -> nat
               -> string + list image;
  extend : image -> ratio -> string + image;
  (* video service: a source image and the subject path *)
  animate : image -> string -> string + string
}.


Section Stages.

Variable provider : providers.
(** The attribute names the schema requires, the number of candidates, the
    subject path, and the reading of the selector's raw answer as an
    identifier: all configuration or code that is not among the sources. *)
Variable schema : list string.
Variable N : nat.
Variable subject_path : string.
Variable parse_identifier : string -> option nat.

Fixpoint assoc {A : Type} (k : string) (l : list (string * A)) : option A :=
  match l with
  | [] => None
  | (k', v) :: rest => if String.eqb k k' then Some v else assoc k rest
  end.

(** Modelled from the spec: the Forensic Descriptor (4.1), part of
    [image_generator.py].  Every attribute of the schema present and
    non-null, else [SchemaViolation]. *)
Fixpoint conform (fields : list string) (record : list (string * option string))
  : option profile :=
  match fields with
  | [] => Some []
  | k :: rest =>
      match assoc k record, conform rest record with
      | Some (Some v), Some p => Some ((k, v) :: p)
      | _, _ => None
      end
  end.

Definition describe (r : reference_image) : cause + profile :=
  match analyse provider r with
  | Some record =>
      match conform schema record with
      | Some p => inr p
      | None => inl SchemaViolation
      end
  | None => inl SchemaViolation
  end.

Fixpoint describe_all (refs : list reference_image) : cause + list profile :=
  match refs with
  | [] => inr []
  | r :: rest =>
      match describe r with
      | inl c => inl c
      | inr p =>
          match describe_all rest with
          | inl c => inl c
          | inr ps => inr (p :: ps)
          end
      end
  end.

Definition is_space (c : ascii) : bool :=
  let n := nat_of_ascii c in
  Nat.eqb n 32 || Nat.eqb n 9 || Nat.eqb n 10 || Nat.eqb n 13.

Fixpoint is_blank (s : string) : bool :=
  match s with
  | EmptyString => true
  | String c rest => is_space c && is_blank rest
  end.

(** Modelled from the spec: the Description Synthesizer (4.2), part of
    [image_generator.py].  An empty or whitespace-only description is
    [GenerationEmpty]. *)
Definition synthesize (ps : list profile) : cause + string :=
  let d := summarise provider ps in
  if is_blank d then inl GenerationEmpty else inr d.

(** Identifiers are positions in the provider's answer. *)
Fixpoint number (from : nat) (images : list image) : list candidate :=
  match images with
  | [] => []
  | i :: rest => MkCandidate from i :: number (S from) rest
  end.

(** Modelled from the spec: the Candidate Image Generator (4.3), part of
    [image_generator.py].  [N] square candidates; an error or fewer than
    [N] images is [GenerationFailed].  The specification does not say what
    happens to a surplus; the first [N] images are kept. *)
Definition generate (refs : list reference_image) (description scenario : string)
  : cause + list candidate :=
  match synthesise provider refs description scenario square N with
  | inl _ => inl GenerationFailed
  | inr images =>
      if Nat.ltb (length images) N then inl GenerationFailed
      else inr (number 0 (firstn N images))
  end.

(** Modelled from the spec: the Best-Candidate Selector (4.4), part of
    [image_generator.py].  The raw answer is read as an identifier and
    mapped back to the candidate that carries it; an answer that names
    none of them is [SelectionAmbiguous]. *)
Definition select (cands : list candidate) (refs : list reference_image)
  : cause + candidate :=
  match parse_identifier (choose provider cands refs) with
  | Some id =>
      match find (fun c => Nat.eqb (cand_id c) id) cands with
      | Some c => inr c
      | None => inl SelectionAmbiguous
      end
  | None => inl SelectionAmbiguous
  end.

(** Modelled from the spec: the Outpainting Stage (4.5), part of
    [image_generator.py].  The canvas is extended to 16:9; a rejected
    request is [OutpaintFailed]. *)
Definition outpaint (selected : candidate) : cause + image :=
  match extend provider (cand_image selected) widescreen with
  | inl _ => inl OutpaintFailed
  | inr wide => inr wide
  end.

(** Modelled from the spec: the Video Generator (4.6),
    [video_generator.py].  A provider error is [VideoGenerationFailed]. *)
Definition render (wide : image) : cause + string :=
  match animate provider wide subject_path with
  | inl _ => inl VideoGenerationFailed
  | inr clip => inr clip
  end.

(** The run: the reference set and the scenario it was started with, and
    the artifacts derived so far.  [Failed] is terminal and keeps
    nothing. *)
Inductive run_state : Type :=
| Initialized (refs : list reference_image) (scenario : string)
| Described (refs : list reference_image) (scenario : string) (ps : list profile)
| Synthesized (refs : list reference_image) (scenario : string) (description : string)
| CandidatesGenerated (refs : list reference_image) (scenario : string)
    (cands : list candidate)
| Selected (refs : list reference_image) (scenario : string)
    (cands : list candidate) (selected : candidate)
| Outpainted (refs : list reference_image) (scenario : string)
    (cands : list candidate) (selected : candidate) (wide : image)
| VideoRendered (refs : list reference_image) (scenario : string)
    (cands : list candidate) (selected : candidate) (wide : image) (clip : string)
| Failed (stage : stage_name) (why : cause).

(** Modelled from the spec: the pipeline state machine of section 4.  One
    transition, gated by the stage's success. *)
Definition step (s : run_state) : run_state :=
  match s with
  | Initialized refs sc =>
      match describe_all refs with
      | inr ps => Described refs sc ps
      | inl c => Failed Describing c
      end
  | Described refs sc ps =>
      match synthesize ps with
      | inr d => Synthesized refs sc d
      | inl c => Failed Synthesizing c
      end
  | Synthesized refs sc d =>
      match generate refs d sc with
      | inr cands => CandidatesGenerated refs sc cands
      | inl c => Failed Generating c
      end
  | CandidatesGenerated refs sc cands =>
      match select cands refs with
      | inr sel => Selected refs sc cands sel
      | inl c => Failed Selecting c
      end
  | Selected refs sc cands sel =>
      match outpaint sel with
      | inr wide => Outpainted refs sc cands sel wide
      | inl c => Failed Outpainting c
      end
  | Outpainted refs sc cands sel wide =>
      match render wide with
      | inr clip => VideoRendered refs sc cands sel wide clip
      | inl c => Failed Rendering c
      end
  | VideoRendered _ _ _ _ _ _ => s
  | Failed _ _ => s
  end.

Fixpoint steps (n : nat) (s : run_state) : run_state :=
  match n with
  | O => s
  | S m => steps m (step s)
  end.

(** A run from start to end: six stages. *)
Definition run (refs : list reference_image) (scenario : string) : run_state :=
  steps 6 (Initialized refs scenario).

(** The candidate set a state carries, if it carries one. *)
Definition candidates_of (s : run_state) : option (list candidate) :=
  match s with
  | CandidatesGenerated _ _ cands | Selected _ _ cands _
  | Outpainted _ _ cands _ _ | VideoRendered _ _ cands _ _ _ => Some cands
  | _ => None
  end.

Definition selected_of (s : run_state) : option candidate :=
  match s with
  | Selected _ _ _ sel | Outpainted _ _ _ sel _ | VideoRendered _ _ _ sel _ _ => Some sel
  | _ => None
  end.


(** What every state of a run satisfies: a candidate set has exactly [N]
    members, and a selected candidate is one of them. *)
Definition sound (s : run_state) : Prop :=
  match candidates_of s with
  | Some cands =>
      length cands = N
      /\ match selected_of s with
         | Some sel => In sel cands
         | None => True
         end
  | None => selected_of s = None
  end.


End Stages.

(** *** Test doubles *)

(** Decimal digits, and nothing else, as a number. *)
Fixpoint digits (acc : nat) (s : string) : option nat :=
  match s with
  | EmptyString => Some acc
  | String c rest =>
      let n := nat_of_ascii c in
      if Nat.leb 48 n && Nat.leb n 57 then digits (10 * acc + (n - 48)) rest else None
  end.

Definition decimal (s : string) : option nat :=
  match s with
  | EmptyString => None
  | _ => digits 0 s
  end.

Definition demo_schema : list string := ["face_shape"; "eye_color"].

(** A provider that returns [n] square images when asked for [n], picks
    the candidate [answer], and extends to the ratio it is asked for. *)
Definition demo_provider (answer : string) : providers :=
  MkProviders
    (fun r => Some [("eye_color", Some "brown"); ("face_shape", Some "oval");
                    ("hair", None)])
    (fun ps => "a person with an oval face and brown eyes")
    (fun cands refs => answer)
    (fun refs d sc r n => inr (repeat (MkImage (64 * across r) (64 * up r) "px") n))
    (fun i r => inr (MkImage (img_height i * across r) (img_height i * up r)
                       (img_pixels i)))
    (fun i subject => inr "clip").

(** A provider whose image service returns one image short of the count. *)
Definition short_provider : providers :=
  MkProviders
    (analyse (demo_provider "0")) (summarise (demo_provider "0"))
    (choose (demo_provider "0"))
    (fun refs d sc r n => inr (repeat (MkImage 64 64 "px") (pred n)))
    (extend (demo_provider "0")) (animate (demo_provider "0")).



Definition demo_refs : list reference_image :=
  [MkReference "refs/a.png" "A"; MkReference "refs/b.jpg" "B";
   MkReference "refs/notes.txt" "n"].

End Pipeline.

(** * Facts

    ** Resolution of joined paths *)

Module DiskFacts.
Import Path Disk.

(** *** Facts about path strings *)

Lemma append_nil_r (s : string) : (s ++ "")%string = s.
Proof. induction s as [|c s IH]; simpl; [reflexivity | now rewrite IH]. Qed.

Lemma append_assoc (s t u : string) : ((s ++ t) ++ u = s ++ (t ++ u))%string.
Proof. induction s as [|c s IH]; simpl; [reflexivity | now rewrite IH]. Qed.

Lemma endswith_sep_split (a : string) :
  endswith_sep a = true -> exists a0, a = (a0 ++ String sep "")%string.
Proof.
  induction a as [|c a IH]; simpl; [discriminate|].
  destruct a as [|c' a'].
  - intros H. apply Ascii.eqb_eq in H. subst c. now exists "".
  - intros H. destruct (IH H) as [a0 E]. exists (String c a0). simpl. now rewrite <- E.
Qed.

Lemma startswith_sep_append (a b : string) :
  is_empty a = false -> startswith_sep (a ++ b)%string = startswith_sep a.
Proof. destruct a; simpl; [discriminate | reflexivity]. Qed.

Lemma is_empty_append (a b : string) :
  is_empty a = false -> is_empty (a ++ b)%string = false.
Proof. destruct a; simpl; [discriminate | reflexivity]. Qed.

Lemma valid_name_inv (f : string) :
  valid_name f = true ->
  is_empty f = false /\ String.eqb f "." = false /\ String.eqb f ".." = false
  /\ has_sep f = false.
Proof.
  unfold valid_name. rewrite !andb_true_iff, !negb_true_iff. tauto.
Qed.

Lemma has_sep_startswith (f : string) : has_sep f = false -> startswith_sep f = false.
Proof. destruct f; simpl; [reflexivity|]. now intros [H _]%orb_false_iff. Qed.

(** *** Facts about resolution *)

Lemma scan_app (p q : string) : forall stk comp,
  scan stk comp (p ++ q)%string =
  match scan stk comp p with
  | Some (stk', comp') => scan stk' comp' q
  | None => None
  end.
Proof.
  induction p as [|c p IH]; intros stk comp; simpl; [reflexivity|].
  destruct (is_sep c).
  - destruct (resolve stk comp) as [[|[| |es] up]|]; try reflexivity. apply IH.
  - apply IH.
Qed.

Lemma scan_name (f : string) : forall stk comp,
  has_sep f = false -> scan stk comp f = Some (stk, (comp ++ f)%string).
Proof.
  induction f as [|c f IH]; intros stk comp; simpl.
  - now rewrite append_nil_r.
  - intros [Hc Hf]%orb_false_iff. rewrite Hc, IH by assumption.
    now rewrite append_assoc.
Qed.

Lemma scan_trailing_sep (a0 : string) stk comp stk' comp' :
  scan stk comp (a0 ++ String sep "")%string = Some (stk', comp') ->
  comp' = "" /\ resolve stk' "" = Some stk'.
Proof.
  rewrite scan_app. destruct (scan stk comp a0) as [[s c]|]; [|discriminate].
  simpl. destruct (resolve s c) as [[|[| |es] up]|]; try discriminate.
  intros [= <- <-]. split; reflexivity.
Qed.

Lemma resolve_name (f : string) es up :
  valid_name f = true ->
  resolve (Dir es :: up) f =
  match lookup f es with
  | Some n => Some (n :: Dir es :: up)
  | None => None
  end.
Proof.
  intros (He & Hd & Hdd & _)%valid_name_inv. unfold resolve.
  now rewrite He, Hd, Hdd.
Qed.

(** Walking [join d f], for a directory [d] and an entry name [f], ends
    at the entry [f] of that directory. *)
Lemma walk_join (d f : string) stk es up :
  walk stk d = Some (Dir es :: up) ->
  valid_name f = true ->
  walk stk (join d f) =
  match lookup f es with
  | Some n => Some (n :: Dir es :: up)
  | None => None
  end.
Proof.
  intros Hd Hf. pose proof (valid_name_inv _ Hf) as (_ & _ & _ & Hs).
  unfold join. rewrite (has_sep_startswith _ Hs).
  unfold walk in *.
  destruct (scan stk "" d) as [[s c]|] eqn:Hscan; [|discriminate].
  destruct (is_empty d || endswith_sep d) eqn:Hend.
  - apply orb_true_iff in Hend. destruct Hend as [Hemp | Hend].
    + destruct d; [|discriminate]. simpl in Hscan. injection Hscan as <- <-.
      simpl in Hd. injection Hd as ->.
      simpl. rewrite scan_name by assumption. simpl. now apply resolve_name.
    + destruct (endswith_sep_split _ Hend) as [d0 ->].
      destruct (scan_trailing_sep _ _ _ _ _ Hscan) as [-> Hs'].
      rewrite Hs' in Hd. injection Hd as ->.
      rewrite scan_app, Hscan, scan_name by assumption. simpl.
      now apply resolve_name.
  - rewrite scan_app, Hscan. simpl. rewrite Hd.
    rewrite scan_name by assumption. simpl. now apply resolve_name.
Qed.

(** [os.stat] of [join d f]: the entry [f] of the directory at [d]. *)
Lemma stat_join (fs : filesystem) (d f : string) es :
  stat fs d = Some (Dir es) ->
  valid_name f = true ->
  stat fs (join d f) = lookup f es.
Proof.
  unfold stat. intros Hd Hf.
  destruct (is_empty d) eqn:He; [discriminate|].
  pose proof (valid_name_inv _ Hf) as (_ & _ & _ & Hs).
  assert (Hj : is_empty (join d f) = false /\ start fs (join d f) = start fs d).
  { unfold join, start. rewrite (has_sep_startswith _ Hs), He. simpl.
    destruct (endswith_sep d);
      (split; [now apply is_empty_append | now rewrite startswith_sep_append]). }
  destruct Hj as [-> ->].
  destruct (start fs d) as [stk|]; [|discriminate].
  destruct (walk stk d) as [[|n up]|] eqn:Hw; try discriminate.
  injection Hd as ->.
  rewrite (walk_join _ _ _ _ _ Hw Hf). now destruct (lookup f es).
Qed.

(** *** Facts about well-formed trees *)

Lemma wf_children (es : list (string * node)) :
  (fix all (l : list (string * node)) : bool :=
     match l with
     | [] => true
     | (_, c) :: rest => wf_node c && all rest
     end) es = true <->
  (forall f n, In (f, n) es -> wf_node n = true).
Proof.
  induction es as [|[g c] es IH].
  - split; [intros _ f n [] | reflexivity].
  - rewrite andb_true_iff, IH. split.
    + intros [Hc Hes] f n [[= <- <-] | Hin]; [assumption | eauto].
    + intros H. split; [apply (H g) | intros f n Hin; apply (H f)]; simpl; auto.
Qed.

Lemma wf_node_dir (es : list (string * node)) :
  wf_node (Dir es) = true <->
  forallb valid_name (names es) = true /\ distinct (names es) = true
  /\ (forall f n, In (f, n) es -> wf_node n = true).
Proof.
  change (wf_node (Dir es)) with
    (forallb valid_name (names es) && distinct (names es)
     && (fix all (l : list (string * node)) : bool :=
           match l with
           | [] => true
           | (_, c) :: rest => wf_node c && all rest
           end) es).
  rewrite !andb_true_iff, wf_children. tauto.
Qed.

Lemma lookup_In (f : string) (es : list (string * node)) (n : node) :
  lookup f es = Some n -> In (f, n) es.
Proof.
  induction es as [|[g c] es IH]; simpl; [discriminate|].
  destruct (String.eqb f g) eqn:E.
  - apply String.eqb_eq in E. intros [= ->]. subst g. now left.
  - intros H. right. now apply IH.
Qed.

Lemma lookup_distinct (f : string) (es : list (string * node)) (n : node) :
  distinct (names es) = true -> In (f, n) es -> lookup f es = Some n.
Proof.
  induction es as [|[g c] es IH]; simpl; [intros _ []|].
  intros [Hg Hd]%andb_true_iff [[= -> ->] | Hin].
  - now rewrite String.eqb_refl.
  - destruct (String.eqb f g) eqn:E; [|now apply IH].
    apply String.eqb_eq in E. subst g. apply negb_true_iff in Hg.
    assert (existsb (String.eqb f) (names es) = true); [|congruence].
    apply existsb_exists. exists f. split; [|apply String.eqb_refl].
    apply (in_map fst) in Hin. exact Hin.
Qed.

Lemma resolve_wf (stk stk' : chain) (comp : string) :
  wf_chain stk -> resolve stk comp = Some stk' -> wf_chain stk'.
Proof.
  unfold resolve. intros Hwf.
  destruct (is_empty comp || String.eqb comp "."); [now intros [= <-]|].
  destruct (String.eqb comp "..").
  - intros [= <-]. destruct stk as [|n [|m up]]; try assumption.
    now inversion Hwf.
  - destruct stk as [|[| |es] up]; try discriminate.
    destruct (lookup comp es) as [n|] eqn:E; [|discriminate].
    intros [= <-]. constructor; [|assumption].
    inversion Hwf as [|? ? Hd _]; subst.
    apply wf_node_dir in Hd. destruct Hd as (_ & _ & Hc).
    apply (Hc comp). now apply lookup_In.
Qed.

Lemma scan_wf (p : string) : forall stk comp stk' comp',
  wf_chain stk -> scan stk comp p = Some (stk', comp') -> wf_chain stk'.
Proof.
  induction p as [|c p IH]; intros stk comp stk' comp' Hwf; simpl.
  - now intros [= <- _].
  - destruct (is_sep c); [|now apply IH].
    destruct (resolve stk comp) as [[|[| |es] up]|] eqn:E; try discriminate.
    apply IH. now apply (resolve_wf _ _ _ Hwf E).
Qed.

Lemma walk_wf (stk stk' : chain) (p : string) :
  wf_chain stk -> walk stk p = Some stk' -> wf_chain stk'.
Proof.
  unfold walk. intros Hwf.
  destruct (scan stk "" p) as [[s c]|] eqn:E; [|discriminate].
  apply resolve_wf. now apply (scan_wf _ _ _ _ _ Hwf E).
Qed.

(** Whatever a path names on a well-formed disk is well-formed. *)
Lemma stat_wf (fs : filesystem) (p : string) (n : node) :
  wf fs = true -> stat fs p = Some n -> wf_node n = true.
Proof.
  unfold stat, wf. intros Hwf.
  destruct (is_empty p); [discriminate|].
  assert (Hroot : wf_chain (root_chain fs)) by (constructor; [assumption | constructor]).
  destruct (start fs p) as [stk|] eqn:Es; [|discriminate].
  assert (Hstk : wf_chain stk).
  { unfold start in Es. destruct (startswith_sep p).
    - now injection Es as <-.
    - now apply (walk_wf _ _ _ Hroot Es). }
  destruct (walk stk p) as [[|m up]|] eqn:Ew; try discriminate.
  intros [= <-]. apply (walk_wf _ _ _ Hstk) in Ew. now inversion Ew.
Qed.

(** On a well-formed disk, asking [isfile] of every joined entry name of a
    directory singles out exactly its regular files. *)
Lemma isfile_join_entry (fs : filesystem) (d : string) es f n :
  wf fs = true -> stat fs d = Some (Dir es) -> In (f, n) es ->
  isfile fs (join d f) = is_regular n.
Proof.
  intros Hwf Hd Hin.
  pose proof (stat_wf _ _ _ Hwf Hd) as Hes.
  apply wf_node_dir in Hes. destruct Hes as (Hv & Hdist & _).
  assert (Hf : valid_name f = true).
  { rewrite forallb_forall in Hv. apply Hv. apply (in_map fst) in Hin. exact Hin. }
  unfold isfile. rewrite (stat_join _ _ _ _ Hd Hf).
  rewrite (lookup_distinct _ _ _ Hdist Hin). now destruct n.
Qed.

Lemma filter_isfile_entries (fs : filesystem) (d : string) es :
  wf fs = true -> stat fs d = Some (Dir es) ->
  filter (fun f => isfile fs (join d f)) (names es) = regular_files es.
Proof.
  intros Hwf Hd. unfold regular_files, names.
  assert (H : forall l, incl l es ->
    filter (fun f => isfile fs (join d f)) (map fst l)
    = map fst (filter (fun e => is_regular (snd e)) l)).
  { induction l as [|[f n] l IH]; intros Hincl; [reflexivity|]. simpl.
    rewrite (isfile_join_entry _ _ _ _ _ Hwf Hd (Hincl _ (or_introl eq_refl))).
    rewrite IH by (intros e He; apply Hincl; now right).
    now destruct (is_regular n). }
  apply H, incl_refl.
Qed.

End DiskFacts.

(** ** The configuration cell *)

Module ValidationFacts.
Import Path Disk Py Notebook Observe DiskFacts.

Lemma logged_nil (w : world) : logged w [] = w.
Proof. destruct w. unfold logged. simpl. now rewrite app_nil_r. Qed.

Lemma logged_logged (w : world) (t u : list event) :
  logged (logged w t) u = logged w (t ++ u).
Proof. unfold logged. simpl. now rewrite app_assoc. Qed.

Lemma comprehension_eq (loc : string) (entries : list string) : forall w,
  comprehension loc entries w =
  (inr (map (join loc) (filter (fun f => isfile (disk w) (join loc f)) entries)),
   logged w (map (fun f => OsIsfile (join loc f)) entries)).
Proof.
  induction entries as [|f rest IH]; intros w.
  - simpl. now rewrite logged_nil.
  - simpl. unfold bind at 1. unfold os_path_isfile, bind at 1, emit. simpl.
    unfold bind at 1. rewrite IH. unfold logged, ret. simpl.
    rewrite <- !app_assoc. simpl.
    now destruct (isfile (disk w) (join loc f)).
Qed.

(** Validation of a location that is not a directory: one [isdir] call,
    then the exception. *)
Lemma validate_not_dir (loc : string) (w : world) :
  isdir (disk w) loc = false ->
  validate_inputs loc w = (inl (not_a_directory loc), logged w [OsIsdir loc]).
Proof.
  intros H. unfold validate_inputs, bind, os_path_isdir, bind, emit. simpl.
  now rewrite H.
Qed.

(** Validation of a directory: the listing, one [isfile] per entry, the
    new list object, and the verdict on it. *)
Lemma validate_dir (loc : string) (w : world) es :
  stat (disk w) loc = Some (Dir es) ->
  let files := map (join loc) (filter (fun f => isfile (disk w) (join loc f)) (names es)) in
  let scanned := OsIsdir loc :: OsListdir loc :: map (fun f => OsIsfile (join loc f)) (names es) in
  validate_inputs loc w =
  match files with
  | [] =>
      (inl (no_image_files loc),
       MkWorld (disk w) (objects w ++ [files]) (trace w ++ scanned))
  | _ :: _ =>
      (inr (length (objects w)),
       MkWorld (disk w) (objects w ++ [files])
         (trace w ++ scanned ++ [Print (found_message (length files) loc)]))
  end.
Proof.
  intros Hd files scanned.
  assert (Hi : isdir (disk w) loc = true) by (unfold isdir; now rewrite Hd).
  unfold validate_inputs, bind at 1, os_path_isdir, bind at 1, emit. simpl.
  rewrite Hi. simpl.
  unfold bind at 1, os_listdir, bind at 1, emit. simpl. rewrite Hd.
  unfold bind at 1. rewrite comprehension_eq. simpl.
  fold files. unfold bind at 1, new_list. simpl.
  unfold bind at 1, deref. simpl.
  rewrite nth_middle.
  subst scanned. simpl.
  destruct files as [|p ps] eqn:E.
  - unfold raise. simpl. now rewrite <- !app_assoc.
  - unfold bind, print, emit, ret. simpl. now rewrite <- !app_assoc.
Qed.

End ValidationFacts.

(** ** The reference set loader *)

Module LoaderFacts.
Import Path Disk Py Notebook Demo Observe DiskFacts ValidationFacts.

(** The loader, in one equation. *)
Lemma load_reference_set_eq (w : world) (loc : string) :
  wf (disk w) = true ->
  load_reference_set loc w =
  match stat (disk w) loc with
  | Some (Dir es) =>
      match regular_files es with
      | [] => inl (no_image_files loc)
      | _ :: _ => inr (map (join loc) (regular_files es))
      end
  | _ => inl (not_a_directory loc)
  end.
Proof.
  intros Hwf. unfold load_reference_set.
  destruct (stat (disk w) loc) as [[c| |es]|] eqn:Hd.
  1,2,4: rewrite validate_not_dir by (unfold isdir; now rewrite Hd); reflexivity.
  pose proof (validate_dir loc w es Hd) as Hv. cbv zeta in Hv.
  rewrite (filter_isfile_entries _ _ _ Hwf Hd) in Hv. rewrite Hv.
  destruct (regular_files es) as [|f fs]; [reflexivity|].
  cbn [map objects]. now rewrite nth_middle.
Qed.

(** C1.  On a well-formed disk the loader, given a path that names a
    directory with at least one regular file, returns exactly that
    directory's regular files, each joined to the path, in directory order
    and without looking into subdirectories; given a directory with no
    regular file it raises the no-image-files [ValueError]; given a path
    that names no directory (in particular one that does not exist) it
    raises the not-a-directory [ValueError].  These two [ValueError]s are
    what the specification calls [InputValidationError]; in both cases no
    list is returned. *)
Theorem reference_set_loader (w : world) (loc : string) :
  wf (disk w) = true ->
  match stat (disk w) loc with
  | Some (Dir es) =>
      match regular_files es with
      | [] => load_reference_set loc w = inl (no_image_files loc)
      | _ :: _ => load_reference_set loc w = inr (map (join loc) (regular_files es))
      end
  | Some _ | None => load_reference_set loc w = inl (not_a_directory loc)
  end.
Proof.
  intros Hwf. rewrite (load_reference_set_eq _ _ Hwf).
  destruct (stat (disk w) loc) as [[c| |es]|]; try reflexivity.
  now destruct (regular_files es).
Qed.

Lemma reference_set_loader_witness :
  load_reference_set "refs" demo_world
  = inr ["refs/a.png"; "refs/notes.txt"; "refs/b.jpg"]
  /\ load_reference_set "/data/empty/" demo_world = inl (no_image_files "/data/empty/")
  /\ load_reference_set "../nowhere" demo_world = inl (not_a_directory "../nowhere")
  /\ load_reference_set "refs/a.png" demo_world = inl (not_a_directory "refs/a.png").
Proof.
  split; [|split; [|split]].
  - exact (reference_set_loader demo_world "refs" eq_refl).
  - exact (reference_set_loader demo_world "/data/empty/" eq_refl).
  - exact (reference_set_loader demo_world "../nowhere" eq_refl).
  - exact (reference_set_loader demo_world "refs/a.png" eq_refl).
Defined.

(** C8.  The loader does not tell images from other files: whatever the
    test for being an image, every regular file of the directory is in
    the list it returns, and a directory whose regular files are all
    non-images is accepted, not rejected. *)
Theorem loader_keeps_non_images (is_image : string -> string -> bool)
    (w : world) (loc : string) es (f c : string) :
  wf (disk w) = true ->
  stat (disk w) loc = Some (Dir es) ->
  (forall g b, In (g, File b) es -> is_image g b = false) ->
  In (f, File c) es ->
  load_reference_set loc w = inr (map (join loc) (regular_files es))
  /\ In (join loc f) (map (join loc) (regular_files es)).
Proof.
  intros Hwf Hd _ Hin.
  assert (Hf : In f (regular_files es)).
  { unfold regular_files, names. apply (in_map fst _ (f, File c)).
    apply filter_In. now split. }
  split; [|now apply in_map].
  rewrite (load_reference_set_eq _ _ Hwf), Hd.
  destruct (regular_files es); [destruct Hf | reflexivity].
Qed.

Lemma loader_keeps_non_images_witness :
  load_reference_set "/data/docs" demo_world
  = inr ["/data/docs/readme.md"; "/data/docs/run.sh"]
  /\ In "/data/docs/run.sh" ["/data/docs/readme.md"; "/data/docs/run.sh"].
Proof.
  apply (loader_keeps_non_images looks_like_image demo_world "/data/docs"
           [("readme.md", File "r"); ("run.sh", File "s")] "run.sh" "s").
  - reflexivity.
  - reflexivity.
  - intros g b [[= <- <-] | [[= <- <-] | []]]; reflexivity.
  - simpl. auto.
Defined.

End LoaderFacts.

(** ** Order of the validation errors *)

Module ValidationOrder.
Import Path Disk Py Notebook Demo Observe DiskFacts ValidationFacts.

Lemma validation_errors_differ (loc : string) :
  not_a_directory loc <> no_image_files loc.
Proof. unfold not_a_directory, no_image_files. simpl. discriminate. Qed.

(** How validation can end: with the first error after a single [isdir]
    call, with the second error after the listing, or with the list. *)
Lemma validate_inputs_cases (loc : string) (w : world) :
  (isdir (disk w) loc = false
   /\ validate_inputs loc w = (inl (not_a_directory loc), logged w [OsIsdir loc]))
  \/ (isdir (disk w) loc = true
      /\ exists t files,
           disk (snd (validate_inputs loc w)) = disk w
           /\ objects (snd (validate_inputs loc w)) = objects w ++ [files]
           /\ trace (snd (validate_inputs loc w))
              = trace w ++ OsIsdir loc :: OsListdir loc :: t
           /\ stage_calls t = []
           /\ match files with
              | [] => fst (validate_inputs loc w) = inl (no_image_files loc)
              | _ :: _ => fst (validate_inputs loc w) = inr (length (objects w))
              end).
Proof.
  destruct (stat (disk w) loc) as [[c| |es]|] eqn:Hd.
  1,2,4: left; assert (Hi : isdir (disk w) loc = false)
           by (unfold isdir; now rewrite Hd);
         split; [exact Hi | now apply validate_not_dir].
  right. split; [unfold isdir; now rewrite Hd|].
  pose proof (validate_dir loc w es Hd) as Hv. cbv zeta in Hv.
  set (files := map (join loc) _) in Hv.
  assert (Hq : forall l : list string,
             stage_calls (map (fun f => OsIsfile (join loc f)) l) = []).
  { induction l; [reflexivity | assumption]. }
  destruct files as [|p ps] eqn:E; rewrite Hv; simpl.
  - exists (map (fun f => OsIsfile (join loc f)) (names es)), [].
    repeat (split; [reflexivity|]). split; [apply Hq | reflexivity].
  - eexists _, (p :: ps).
    repeat (split; [reflexivity|]). split; [|reflexivity].
    unfold stage_calls. rewrite filter_app.
    fold (stage_calls (map (fun f => OsIsfile (join loc f)) (names es))).
    now rewrite Hq.
Qed.

(** C9.  Validation raises at most one of its two errors, and in a fixed
    order: the not-a-directory error comes right after the [isdir] call,
    before anything is listed; the no-image-files error comes after the
    listing, hence only for a path that is a directory. *)
Theorem validation_errors_ordered (loc : string) (w : world) (e : exn) (w' : world) :
  validate_inputs loc w = (inl e, w') ->
  (e = not_a_directory loc /\ e <> no_image_files loc
   /\ isdir (disk w) loc = false
   /\ w' = logged w [OsIsdir loc])
  \/ (e = no_image_files loc /\ e <> not_a_directory loc
      /\ isdir (disk w) loc = true
      /\ exists t, trace w' = trace w ++ OsIsdir loc :: OsListdir loc :: t).
Proof.
  intros H.
  destruct (validate_inputs_cases loc w) as [[Hi Hv] | [Hi (t & files & _ & _ & Ht & _ & Hr)]].
  - left. rewrite Hv in H. injection H as <- <-.
    repeat split; [apply validation_errors_differ | assumption].
  - right. rewrite H in Ht, Hr. simpl in Ht, Hr.
    destruct files; [|discriminate]. injection Hr as ->.
    repeat split; [|assumption | now exists t].
    intros E. symmetry in E. revert E. apply validation_errors_differ.
Qed.

Lemma validation_errors_ordered_witness :
  (exists t, [OsIsdir "/data/empty"; OsListdir "/data/empty"; OsIsfile "/data/empty/sub2"]
             = [] ++ OsIsdir "/data/empty" :: OsListdir "/data/empty" :: t)
  /\ isdir demo_disk "/data/empty" = true.
Proof.
  destruct (validation_errors_ordered "/data/empty" demo_world
              (no_image_files "/data/empty")
              (MkWorld demo_disk [[]]
                 [OsIsdir "/data/empty"; OsListdir "/data/empty";
                  OsIsfile "/data/empty/sub2"])
              eq_refl) as [(E & _) | (_ & _ & Hi & Ht)].
  - discriminate E.
  - split; [exact Ht | exact Hi].
Defined.

End ValidationOrder.

(** ** Quiet code *)

Module QuietFacts.
Import Path Disk Py Notebook Observe ValidationFacts.

Lemma stage_calls_app (t u : list event) :
  stage_calls (t ++ u) = stage_calls t ++ stage_calls u.
Proof. apply filter_app. Qed.

Lemma quiet_ret {A : Type} (a : A) : quiet (ret a).
Proof. intros w. exists []. simpl. now rewrite logged_nil. Qed.

Lemma quiet_raise {A : Type} (e : exn) : quiet (@raise A e).
Proof. intros w. exists []. simpl. now rewrite logged_nil. Qed.

Lemma quiet_emit (e : event) : is_stage_call e = false -> quiet (emit e).
Proof.
  intros H w. exists [e]. split; [reflexivity|].
  unfold stage_calls. simpl. now rewrite H.
Qed.

Lemma quiet_bind {A B : Type} (m : M A) (k : A -> M B) :
  quiet m -> (forall a, quiet (k a)) -> quiet (bind m k).
Proof.
  intros Hm Hk w. destruct (Hm w) as (t & Ht & Hs). unfold bind.
  destruct (m w) as [[e|a] w1]; simpl in Ht; subst w1.
  - now exists t.
  - destruct (Hk a (logged w t)) as (u & Hu & Hsu).
    exists (t ++ u). rewrite Hu, logged_logged, stage_calls_app, Hs, Hsu.
    now split.
Qed.

(** Reading the disk: the answer depends on the world, the world stays. *)
Lemma quiet_read {A : Type} (f : world -> exn + A) : quiet (fun w => (f w, w)).
Proof. intros w. exists []. simpl. now rewrite logged_nil. Qed.

Create HintDb quiet.
#[export] Hint Resolve quiet_ret quiet_raise quiet_bind : quiet.

Lemma quiet_os_path_exists (p : string) : quiet (os_path_exists p).
Proof.
  apply quiet_bind; [now apply quiet_emit|].
  intros _. apply (quiet_read (fun w => inr (exists_ (disk w) p))).
Qed.

Lemma quiet_print (line : string) : quiet (print line).
Proof. now apply quiet_emit. Qed.

Lemma quiet_logger_info (msg : string) : quiet (logger_info msg).
Proof. now apply quiet_emit. Qed.

Lemma quiet_display_image (raises : image_oracle) (p : string) (width : nat) :
  quiet (display_image raises p width).
Proof.
  intros w. unfold display_image. destruct (raises (disk w) p) as [e|].
  - exists []. simpl. now rewrite logged_nil.
  - now apply quiet_emit.
Qed.

Lemma quiet_display_video (p : string) (width : nat) : quiet (display_video p width).
Proof.
  unfold display_video. apply quiet_bind; [|intros _; now apply quiet_emit].
  destruct (is_url p); [apply quiet_ret | now apply quiet_emit].
Qed.

#[export] Hint Resolve quiet_os_path_exists quiet_print
  quiet_logger_info quiet_display_image quiet_display_video : quiet.

Lemma quiet_cell_display_candidates (raises : image_oracle) (paths : list string) :
  quiet (cell_display_candidates raises paths).
Proof. induction paths; simpl; auto with quiet. Qed.

Lemma quiet_cell_display_outpainted (raises : image_oracle) (p : string) :
  quiet (cell_display_outpainted raises p).
Proof. unfold cell_display_outpainted. auto with quiet. Qed.

Lemma quiet_video_guard (video_path : option string) : quiet (video_guard video_path).
Proof.
  destruct video_path as [p|]; simpl; [|auto with quiet].
  destruct (is_empty p); auto with quiet.
Qed.

Lemma quiet_cell_display_video (video_path : option string) :
  quiet (cell_display_video video_path).
Proof.
  unfold cell_display_video. apply quiet_bind; [apply quiet_video_guard|].
  intros [p|]; auto with quiet.
Qed.

#[export] Hint Resolve quiet_cell_display_candidates quiet_cell_display_outpainted
  quiet_video_guard quiet_cell_display_video : quiet.

(** A quiet computation, spelled out at one world. *)
Lemma quiet_run {A : Type} (m : M A) (w : world) :
  quiet m -> exists r t, m w = (r, logged w t) /\ stage_calls t = [].
Proof.
  intros H. destruct (H w) as (t & Ht & Hs). exists (fst (m w)), t.
  split; [|assumption]. rewrite <- Ht. now destruct (m w).
Qed.

End QuietFacts.

(** ** The display cells *)

Module DisplayFacts.
Import Path Disk Py Notebook Demo Observe ValidationFacts QuietFacts.

Lemma display_image_eq (raises : image_oracle) (p : string) (width : nat) (w : world) :
  display_image raises p width w =
  match raises (disk w) p with
  | Some e => (inl e, w)
  | None => (inr tt, logged w [DisplayImage p width])
  end.
Proof. unfold display_image. now destruct (raises (disk w) p). Qed.

Lemma display_video_eq (p : string) (w : world) :
  display_video p 600 w = (inr tt, logged w (video_events p)).
Proof.
  unfold display_video, video_events, bind.
  destruct (is_url p); unfold ret, emit, logged; simpl; [reflexivity|].
  now rewrite <- app_assoc.
Qed.

(** Showing a list of images stops at the first path for which [Image]
    raises. *)
Lemma display_all_eq (raises : image_oracle) (paths : list string) (op : string) :
  forall w,
    bind (cell_display_candidates raises paths)
      (fun _ => cell_display_outpainted raises op) w =
    (match display_failure raises (disk w) (paths ++ [op]) with
     | Some e => inl e
     | None => inr tt
     end,
     logged w (display_events raises (disk w)
                 (map (fun p => (p, 256)) paths ++ [(op, 600)]))).
Proof.
  induction paths as [|p rest IH]; intros w.
  - simpl. unfold bind, ret, cell_display_outpainted. rewrite display_image_eq.
    destruct (raises (disk w) op); [now rewrite logged_nil | reflexivity].
  - simpl. unfold bind at 1. unfold bind at 1. rewrite display_image_eq.
    destruct (raises (disk w) p) eqn:Hp; [now rewrite logged_nil|].
    change (bind (cell_display_candidates raises rest)
              (fun _ => cell_display_outpainted raises op)
              (logged w [DisplayImage p 256])
            = (match display_failure raises (disk w) (rest ++ [op]) with
               | Some e => inl e
               | None => inr tt
               end,
               logged w (DisplayImage p 256
                         :: display_events raises (disk w)
                              (map (fun p => (p, 256)) rest ++ [(op, 600)])))).
    rewrite IH. now rewrite logged_logged.
Qed.

Lemma stage_calls_display_events (raises : image_oracle) (fs : filesystem)
    (paths : list (string * nat)) :
  stage_calls (display_events raises fs paths) = [].
Proof.
  induction paths as [|[p width] rest IH]; simpl; [reflexivity|].
  now destruct (raises fs p).
Qed.

(** The last cell, case by case. *)
Lemma cell_display_video_eq (video_path : option string) (w : world) :
  cell_display_video video_path w =
  match video_path with
  | None => (inr tt, logged w [Print fallback_message])
  | Some p =>
      if is_empty p then (inr tt, logged w [Print fallback_message])
      else if exists_ (disk w) p then
        (inr tt, logged w ([OsExists p; Print final_video_banner] ++ video_events p))
      else (inr tt, logged w [OsExists p; Print fallback_message])
  end.
Proof.
  unfold cell_display_video, video_guard.
  destruct video_path as [p|]; [|reflexivity].
  destruct (is_empty p); [reflexivity|].
  unfold bind at 1. unfold bind at 1. unfold os_path_exists, bind at 1, emit. simpl.
  destruct (exists_ (disk w) p).
  - unfold bind at 1, print, emit. simpl. rewrite display_video_eq.
    unfold logged; simpl. now rewrite <- !app_assoc.
  - unfold print, emit, logged. simpl. now rewrite <- app_assoc.
Qed.

(** C10.  The last cell opens the video file only when [video_path] is
    set, not empty, and names something that exists on the disk; when that
    guard fails the cell prints its fallback message, raises nothing and
    opens nothing.  The disk is the same throughout the cell, so what
    existed when the guard was evaluated exists when the file is opened. *)
Theorem video_display_is_guarded (video_path : option string) (w : world) :
  exists t,
    snd (cell_display_video video_path w) = logged w t
    /\ (forall q, In (OpenRead q) t ->
          video_path = Some q /\ is_empty q = false /\ exists_ (disk w) q = true)
    /\ (match video_path with
        | Some q => is_empty q = true \/ exists_ (disk w) q = false
        | None => True
        end ->
        fst (cell_display_video video_path w) = inr tt
        /\ In (Print fallback_message) t
        /\ forall q, ~ In (OpenRead q) t).
Proof.
  rewrite cell_display_video_eq.
  destruct video_path as [p|].
  2:{ exists [Print fallback_message]. split; [reflexivity|]. split.
      - intros q [H | []]; discriminate H.
      - intros _. split; [reflexivity|]. split; [now left|].
        intros q [H | []]; discriminate H. }
  destruct (is_empty p) eqn:He.
  { exists [Print fallback_message]. split; [reflexivity|]. split.
    - intros q [H | []]; discriminate H.
    - intros _. split; [reflexivity|]. split; [now left|].
      intros q [H | []]; discriminate H. }
  destruct (exists_ (disk w) p) eqn:Hx.
  - exists ([OsExists p; Print final_video_banner] ++ video_events p).
    split; [reflexivity|]. split.
    + unfold video_events. intros q [H | [H | H]]; try discriminate H.
      destruct (is_url p); simpl in H.
      * destruct H as [H | []]. discriminate H.
      * destruct H as [H | [H | []]]; [|discriminate H].
        injection H as <-. auto.
    + intros [H | H]; discriminate H.
  - exists [OsExists p; Print fallback_message]. split; [reflexivity|]. split.
    + intros q [H | [H | []]]; discriminate H.
    + intros _. split; [reflexivity|]. split; [simpl; auto|].
      intros q [H | [H | []]]; discriminate H.
Qed.

Lemma video_display_is_guarded_witness :
  fst (cell_display_video (Some "/out/missing.mp4") demo_world) = inr tt
  /\ fst (cell_display_video (Some "") demo_world) = inr tt
  /\ fst (cell_display_video None demo_world) = inr tt.
Proof.
  split; [|split].
  - destruct (video_display_is_guarded (Some "/out/missing.mp4") demo_world)
      as (t & _ & _ & H).
    apply H. right. reflexivity.
  - destruct (video_display_is_guarded (Some "") demo_world) as (t & _ & _ & H).
    apply H. left. reflexivity.
  - destruct (video_display_is_guarded None demo_world) as (t & _ & _ & H).
    apply H. exact I.
Defined.

End DisplayFacts.

(** ** A run of the whole notebook *)

Module RunFacts.
Import Path Disk Py Notebook Demo Observe ValidationFacts ValidationOrder
  QuietFacts DisplayFacts.

Section Run.

Variable INPUT_DIR : string.
Variable gen : ref -> string -> stage (string * string * list string).
Variable vid : string -> string -> stage (option string).
Variable shows : image_oracle.

Lemma cell_generate_eq (r : ref) (w : world) :
  cell_generate gen r w =
  let g := CallGenerateImages r (nth r (objects w) []) SCENARIO in
  match gen r SCENARIO (disk w) (objects w) with
  | (inl e, d, h) => (inl e, MkWorld d h (trace w ++ [LogInfo log_step1; g]))
  | (inr (pp, op, cs), d, h) =>
      (inr (pp, op, cs),
       MkWorld d h (trace w ++ [LogInfo log_step1; g;
                                LogInfo (log_best op); LogInfo (log_assets pp)]))
  end.
Proof.
  unfold cell_generate, bind, logger_info, deref, call, bind, emit. simpl.
  destruct (gen r SCENARIO (disk w) (objects w)) as [[[e | [[pp op] cs]] d] h]; simpl.
  - now rewrite <- app_assoc.
  - unfold ret. now rewrite <- !app_assoc.
Qed.

Lemma cell_video_eq (pp op : string) (w : world) :
  cell_video vid pp op w =
  let v := CallGenerateVideo pp op in
  match vid pp op (disk w) (objects w) with
  | (inl e, d, h) => (inl e, MkWorld d h (trace w ++ [LogInfo log_step2; v]))
  | (inr vp, d, h) =>
      (inr vp, MkWorld d h (trace w ++ [LogInfo log_step2; v; LogInfo (log_video vp)]))
  end.
Proof.
  unfold cell_video, bind, logger_info, call, bind, emit. simpl.
  destruct (vid pp op (disk w) (objects w)) as [[[e | vp] d] h]; simpl.
  - now rewrite <- app_assoc.
  - unfold ret. now rewrite <- !app_assoc.
Qed.

(** The whole run, case by case. *)
Lemma run_all_eq (w : world) :
  run_all INPUT_DIR gen vid shows w =
  match validate_inputs INPUT_DIR w with
  | (inl e, w1) => (inl e, w1)
  | (inr r, w1) =>
      let g := CallGenerateImages r (nth r (objects w1) []) SCENARIO in
      match gen r SCENARIO (disk w1) (objects w1) with
      | (inl e, d2, h2) => (inl e, MkWorld d2 h2 (trace w1 ++ [LogInfo log_step1; g]))
      | (inr (pp, op, cs), d2, h2) =>
          match display_failure shows d2 (cs ++ [op]) with
          | Some e => (inl e, MkWorld d2 h2 (trace w1 ++ shown shows g pp op cs d2))
          | None =>
              let v := CallGenerateVideo pp op in
              match vid pp op d2 h2 with
              | (inl e, d3, h3) =>
                  (inl e, MkWorld d3 h3 (trace w1 ++ shown shows g pp op cs d2
                                         ++ [LogInfo log_step2; v]))
              | (inr vp, d3, h3) =>
                  cell_display_video vp
                    (MkWorld d3 h3 (trace w1 ++ shown shows g pp op cs d2
                                    ++ [LogInfo log_step2; v; LogInfo (log_video vp)]))
              end
          end
      end
  end.
Proof.
  unfold run_all, cell_configure. unfold bind at 1.
  destruct (validate_inputs INPUT_DIR w) as [[e | r] w1]; [reflexivity|].
  unfold bind at 1. rewrite cell_generate_eq. cbv zeta.
  destruct (gen r SCENARIO (disk w1) (objects w1)) as [[[e | [[pp op] cs]] d2] h2];
    [reflexivity|].
  set (g := CallGenerateImages r (nth r (objects w1) []) SCENARIO).
  set (w2 := MkWorld d2 h2 _).
  change (bind (cell_display_candidates shows cs)
            (fun _ => bind (cell_display_outpainted shows op)
               (fun _ => bind (cell_video vid pp op) (fun vp => cell_display_video vp))) w2
          = match display_failure shows d2 (cs ++ [op]) with
            | Some e => (inl e, MkWorld d2 h2 (trace w1 ++ shown shows g pp op cs d2))
            | None =>
                match vid pp op d2 h2 with
                | (inl e, d3, h3) =>
                    (inl e, MkWorld d3 h3 (trace w1 ++ shown shows g pp op cs d2
                                           ++ [LogInfo log_step2; CallGenerateVideo pp op]))
                | (inr vp, d3, h3) =>
                    cell_display_video vp
                      (MkWorld d3 h3 (trace w1 ++ shown shows g pp op cs d2
                                      ++ [LogInfo log_step2; CallGenerateVideo pp op;
                                          LogInfo (log_video vp)]))
                end
            end).
  pose proof (display_all_eq shows cs op w2) as Hd. change (disk w2) with d2 in Hd.
  unfold bind in Hd |- *. revert Hd.
  destruct (display_failure shows d2 (cs ++ [op])) as [e'|];
    (destruct (cell_display_candidates shows cs w2) as [[e | []] w3];
     [|destruct (cell_display_outpainted shows op w3) as [[e2 | []] w4]]);
    intros Hd; try discriminate Hd.
  - injection Hd as -> ->. unfold logged, shown. simpl. now rewrite <- !app_assoc.
  - injection Hd as -> ->. unfold logged, shown. simpl. now rewrite <- !app_assoc.
  - injection Hd as ->.
    rewrite cell_video_eq. simpl.
    destruct (vid pp op d2 h2) as [[[e | vp] d3] h3]; unfold shown; simpl;
      now rewrite <- !app_assoc.
Qed.

Lemma validate_inputs_frame (loc : string) (w : world) :
  exists tv,
    trace (snd (validate_inputs loc w)) = trace w ++ tv
    /\ stage_calls tv = []
    /\ disk (snd (validate_inputs loc w)) = disk w.
Proof.
  destruct (validate_inputs_cases loc w)
    as [[_ Hv] | [_ (t & files & Hd & _ & Ht & Hs & _)]].
  - rewrite Hv. now exists [OsIsdir loc].
  - exists (OsIsdir loc :: OsListdir loc :: t). now repeat split.
Qed.

Lemma validate_inputs_errors (loc : string) (w : world) (e : exn) :
  fst (validate_inputs loc w) = inl e ->
  e = not_a_directory loc \/ e = no_image_files loc.
Proof.
  destruct (validate_inputs_cases loc w)
    as [[_ Hv] | [_ (t & files & _ & _ & _ & _ & Hr)]].
  - rewrite Hv. simpl. intros [= <-]. now left.
  - destruct files; rewrite Hr; [intros [= <-]; now right | discriminate].
Qed.

Lemma stage_calls_shown (g : event) (pp op : string) (cs : list string) d :
  is_stage_call g = true -> stage_calls (shown shows g pp op cs d) = [g].
Proof.
  intros Hg. unfold shown. rewrite stage_calls_app, stage_calls_display_events.
  unfold stage_calls. simpl. now rewrite Hg.
Qed.


(** The five ways a run can go: validation fails; the first stage fails;
    a display cell fails; the second stage fails; every stage returns. *)
Ltac run_cases w :=
  rewrite (run_all_eq w); cbv zeta;
  let e := fresh "e" in
  let r := fresh "r" in
  let w1 := fresh "w1" in
  let Hv := fresh "Hv" in
  destruct (validate_inputs INPUT_DIR w) as [[e | r] w1] eqn:Hv;
  [| let pp := fresh "pp" in
     let op := fresh "op" in
     let cs := fresh "cs" in
     let d2 := fresh "d2" in
     let h2 := fresh "h2" in
     let Hg := fresh "Hg" in
     destruct (gen r SCENARIO (disk w1) (objects w1))
       as [[[e | [[pp op] cs]] d2] h2] eqn:Hg;
     [| let Hf := fresh "Hf" in
        destruct (display_failure shows d2 (cs ++ [op])) as [e|] eqn:Hf;
        [| let vp := fresh "vp" in
           let d3 := fresh "d3" in
           let h3 := fresh "h3" in
           let Hvid := fresh "Hvid" in
           destruct (vid pp op d2 h2) as [[[e | vp] d3] h3] eqn:Hvid;
           [| let r' := fresh "r'" in
              let t' := fresh "t'" in
              let Hq := fresh "Hq" in
              let Hs := fresh "Hs" in
              match goal with
              | |- context [cell_display_video vp ?W] =>
                  destruct (quiet_run (cell_display_video vp) W
                              (quiet_cell_display_video vp))
                    as (r' & t' & Hq & Hs);
                  rewrite Hq
              end]]]];
  cbn [fst snd trace disk objects logged].

(** C2.  In every run the events of validation come first and contain no
    call to a stage function; when validation fails, it fails with one of
    its two [ValueError]s (the specification's [InputValidationError]),
    the run ends with that exception, and nothing follows in the trace:
    no stage function, hence no model, has been called. *)
Theorem validation_precedes_stage_calls (w : world) :
  exists tv t,
    trace (snd (validate_inputs INPUT_DIR w)) = trace w ++ tv
    /\ trace (snd (run_all INPUT_DIR gen vid shows w)) = trace w ++ tv ++ t
    /\ stage_calls tv = []
    /\ forall e, fst (validate_inputs INPUT_DIR w) = inl e ->
         (e = not_a_directory INPUT_DIR \/ e = no_image_files INPUT_DIR)
         /\ fst (run_all INPUT_DIR gen vid shows w) = inl e
         /\ t = [].
Proof.
  destruct (validate_inputs_frame INPUT_DIR w) as (tv & Htv & Hs & _).
  pose proof (validate_inputs_errors INPUT_DIR w) as He.
  exists tv. revert Htv He. run_cases w; intros Htv He.
  - exists []. rewrite app_nil_r. repeat split; try assumption.
    + now apply He.
    + now injection H as <-.
  - eexists. rewrite Htv, <- app_assoc. repeat split; try eassumption; discriminate.
  - eexists. rewrite Htv, <- app_assoc. repeat split; try eassumption; discriminate.
  - eexists. rewrite Htv, <- app_assoc. repeat split; try eassumption; discriminate.
  - eexists. rewrite Htv, <- !app_assoc. repeat split; try eassumption; discriminate.
Qed.

(** C6.  A run goes forward only.  The calls to the stage functions in
    its trace are, in this order and each at most once: the call of
    [generate_images_and_select_best] on the validated list, then the call
    of [generate_video_from_best_image] on the person path and the
    outpainted image path that the first call returned.  An exception in
    validation, in a stage function or in a display cell is the result of
    the run, and no stage function is called after it. *)
Theorem run_is_forward_only (w : world) :
  exists t,
    trace (snd (run_all INPUT_DIR gen vid shows w)) = trace w ++ t
    /\ match validate_inputs INPUT_DIR w with
       | (inl e, _) =>
           fst (run_all INPUT_DIR gen vid shows w) = inl e /\ stage_calls t = []
       | (inr image_files, w1) =>
           let g := CallGenerateImages image_files
                      (nth image_files (objects w1) []) SCENARIO in
           match gen image_files SCENARIO (disk w1) (objects w1) with
           | (inl e, _, _) =>
               fst (run_all INPUT_DIR gen vid shows w) = inl e /\ stage_calls t = [g]
           | (inr (person_path, outpainted_image_path, candidate_image_paths), d2, h2) =>
               match display_failure shows d2
                       (candidate_image_paths ++ [outpainted_image_path]) with
               | Some e =>
                   fst (run_all INPUT_DIR gen vid shows w) = inl e /\ stage_calls t = [g]
               | None =>
                   stage_calls t
                   = [g; CallGenerateVideo person_path outpainted_image_path]
                   /\ match vid person_path outpainted_image_path d2 h2 with
                      | (inl e, _, _) => fst (run_all INPUT_DIR gen vid shows w) = inl e
                      | (inr _, _, _) => True
                      end
               end
           end
       end.
Proof.
  destruct (validate_inputs_frame INPUT_DIR w) as (tv & Htv & Hs & _).
  revert Htv. run_cases w; intros Htv; rewrite Htv, <- ?app_assoc;
    eexists; (split; [reflexivity|]);
    rewrite ?stage_calls_app, ?Hs, ?stage_calls_shown by reflexivity;
    simpl; auto.
  rewrite Hs0. auto.
Qed.


End Run.

(** *** The run on the sample disk *)

Example demo_run_trace :
  let r := run_all "refs" demo_generate demo_video demo_image demo_world in
  fst r = inr tt
  /\ stage_calls (trace (snd r))
     = [CallGenerateImages 0 ["refs/a.png"; "refs/notes.txt"; "refs/b.jpg"] SCENARIO;
        CallGenerateVideo "/out" "/out/wide.png"].
Proof. split; reflexivity. Qed.

Example demo_run_video_fails :
  let r := run_all "refs" demo_generate
             (fun _ _ => demo_broken "RuntimeError" "quota")
             demo_image demo_world in
  fst r = inl (Raised "RuntimeError" "quota")
  /\ stage_calls (trace (snd r))
     = [CallGenerateImages 0 ["refs/a.png"; "refs/notes.txt"; "refs/b.jpg"] SCENARIO;
        CallGenerateVideo "/out" "/out/wide.png"].
Proof. split; reflexivity. Qed.

Example demo_run_generation_fails :
  let r := run_all "refs" (fun _ _ => demo_broken "RuntimeError" "quota")
             demo_video demo_image demo_world in
  fst r = inl (Raised "RuntimeError" "quota")
  /\ stage_calls (trace (snd r))
     = [CallGenerateImages 0 ["refs/a.png"; "refs/notes.txt"; "refs/b.jpg"] SCENARIO].
Proof. split; reflexivity. Qed.

Lemma validation_precedes_stage_calls_witness :
  fst (run_all "/data/empty" demo_generate demo_video demo_image demo_world)
  = inl (no_image_files "/data/empty")
  /\ stage_calls (trace (snd (run_all "/data/empty" demo_generate demo_video
                                  demo_image demo_world)))
     = [].
Proof.
  destruct (validation_precedes_stage_calls "/data/empty" demo_generate demo_video
              demo_image demo_world) as (tv & t & _ & Ht & Hs & H).
  destruct (H (no_image_files "/data/empty") eq_refl) as (_ & Hr & ->).
  split; [exact Hr|].
  rewrite Ht, app_nil_r. simpl. exact Hs.
Defined.

Lemma run_is_forward_only_witness :
  exists t,
    trace (snd (run_all "refs" demo_generate demo_video demo_image demo_world)) = [] ++ t
    /\ stage_calls t
       = [CallGenerateImages 0 ["refs/a.png"; "refs/notes.txt"; "refs/b.jpg"] SCENARIO;
          CallGenerateVideo "/out" "/out/wide.png"].
Proof.
  destruct (run_is_forward_only "refs" demo_generate demo_video demo_image demo_world)
    as (t & Ht & H).
  exists t. split; [exact Ht|]. exact (proj1 H).
Defined.



End RunFacts.

(** ** The stages of the pipeline *)

Module PipelineFacts.
Import Pipeline.

Section Stages.

Variable provider : providers.
Variable schema : list string.
Variable N : nat.
Variable subject_path : string.
Variable parse_identifier : string -> option nat.

Lemma number_length (images : list image) : forall from,
  length (number from images) = length images.
Proof. induction images as [|i rest IH]; intros from; simpl; [|rewrite IH]; reflexivity. Qed.

Lemma generate_exact (refs : list reference_image) (d sc : string) cands :
  generate provider N refs d sc = inr cands -> length cands = N.
Proof.
  unfold generate.
  destruct (synthesise provider refs d sc square N) as [msg | images]; [discriminate|].
  destruct (Nat.ltb (length images) N) eqn:E; [discriminate|].
  apply Nat.ltb_ge in E. intros [= <-].
  rewrite number_length, length_firstn. lia.
Qed.

Lemma generate_failure (refs : list reference_image) (d sc : string) c :
  generate provider N refs d sc = inl c ->
  c = GenerationFailed
  /\ match synthesise provider refs d sc square N with
     | inl _ => True
     | inr images => length images < N
     end.
Proof.
  unfold generate.
  destruct (synthesise provider refs d sc square N) as [msg | images].
  - now intros [= <-].
  - destruct (Nat.ltb (length images) N) eqn:E; [|discriminate].
    apply Nat.ltb_lt in E. now intros [= <-].
Qed.

Lemma select_member (refs : list reference_image) cands sel :
  select provider parse_identifier cands refs = inr sel ->
  In sel cands
  /\ parse_identifier (choose provider cands refs) = Some (cand_id sel).
Proof.
  unfold select.
  destruct (parse_identifier (choose provider cands refs)) as [id|]; [|discriminate].
  destruct (find (fun c => Nat.eqb (cand_id c) id) cands) as [c|] eqn:E; [|discriminate].
  intros [= <-]. apply find_some in E. destruct E as [Hin Hid].
  apply Nat.eqb_eq in Hid. now subst id.
Qed.

Lemma select_failure (refs : list reference_image) cands c :
  select provider parse_identifier cands refs = inl c ->
  c = SelectionAmbiguous
  /\ forall c', In c' cands ->
       parse_identifier (choose provider cands refs) <> Some (cand_id c').
Proof.
  unfold select.
  destruct (parse_identifier (choose provider cands refs)) as [id|].
  - destruct (find (fun c => Nat.eqb (cand_id c) id) cands) as [c0|] eqn:E; [discriminate|].
    intros [= <-]. split; [reflexivity|]. intros c' Hin [= ->].
    apply (find_none _ _ E) in Hin. now rewrite Nat.eqb_refl in Hin.
  - intros [= <-]. split; [reflexivity | discriminate].
Qed.

Lemma steps_failed (n : nat) (st : stage_name) (c : cause) :
  steps provider schema N subject_path parse_identifier n (Failed st c) = Failed st c.
Proof. induction n; simpl; [reflexivity | assumption]. Qed.

Lemma step_sound (s : run_state) :
  sound N s -> sound N (step provider schema N subject_path parse_identifier s).
Proof.
  destruct s as [refs sc | refs sc ps | refs sc d | refs sc cands
                | refs sc cands sel | refs sc cands sel wide
                | refs sc cands sel wide clip | st c]; unfold sound; simpl.
  - now destruct (describe_all provider schema refs).
  - now destruct (synthesize provider ps).
  - intros _. destruct (generate provider N refs d sc) as [c | cands] eqn:E; simpl;
      [reflexivity|]. split; [now apply (generate_exact refs d sc) | exact I].
  - intros [Hn _].
    destruct (select provider parse_identifier cands refs) as [c | sel] eqn:E; simpl;
      [reflexivity|]. split; [assumption | now apply (select_member refs)].
  - intros H. now destruct (outpaint provider sel).
  - intros H. now destruct (render provider subject_path wide).
  - auto.
  - auto.
Qed.

Lemma steps_sound (n : nat) : forall s,
  sound N s -> sound N (steps provider schema N subject_path parse_identifier n s).
Proof. induction n; intros s H; simpl; [assumption | now apply IHn, step_sound]. Qed.

(** C3.  The generator gives all [N] candidates or none: its transition
    ends in a candidate set of exactly [N] members or in
    [Failed Generating GenerationFailed], the latter when the provider
    returned an error or fewer than [N] images; [Failed] is terminal; and
    no state that a run reaches carries a candidate set of another size. *)
Theorem generator_all_or_nothing (refs : list reference_image) (sc d : string) :
  match step provider schema N subject_path parse_identifier (Synthesized refs sc d) with
  | CandidatesGenerated _ _ cands => length cands = N
  | Failed st c =>
      st = Generating /\ c = GenerationFailed
      /\ match synthesise provider refs d sc square N with
         | inl _ => True
         | inr images => length images < N
         end
      /\ forall n, steps provider schema N subject_path parse_identifier n (Failed st c)
                   = Failed st c
  | _ => False
  end
  /\ forall n cands,
       candidates_of (steps provider schema N subject_path parse_identifier n
                        (Initialized refs sc)) = Some cands ->
       length cands = N.
Proof.
  split.
  - simpl. destruct (generate provider N refs d sc) as [c | cands] eqn:E.
    + destruct (generate_failure _ _ _ _ E) as [-> H].
      repeat split; [assumption | intros n; apply steps_failed].
    + now apply (generate_exact refs d sc).
  - intros n cands H.
    assert (Hs : sound N (steps provider schema N subject_path parse_identifier n
                          (Initialized refs sc)))
      by (apply steps_sound; reflexivity).
    unfold sound in Hs. rewrite H in Hs. apply Hs.
Qed.

(** C4.  The selector returns a member of the candidate set it was given,
    the one whose identifier its raw answer names; an answer that names no
    candidate of the set ends the run in
    [Failed Selecting SelectionAmbiguous], never in a default choice; and
    in every state that a run reaches the selected candidate is one of the
    candidates. *)
Theorem selector_returns_member (refs : list reference_image) (sc : string)
    (cands : list candidate) :
  match step provider schema N subject_path parse_identifier
          (CandidatesGenerated refs sc cands) with
  | Selected _ _ cands' sel =>
      cands' = cands /\ In sel cands
      /\ parse_identifier (choose provider cands refs) = Some (cand_id sel)
  | Failed st c =>
      st = Selecting /\ c = SelectionAmbiguous
      /\ forall c', In c' cands ->
           parse_identifier (choose provider cands refs) <> Some (cand_id c')
  | _ => False
  end
  /\ forall n cs sel,
       candidates_of (steps provider schema N subject_path parse_identifier n
                        (Initialized refs sc)) = Some cs ->
       selected_of (steps provider schema N subject_path parse_identifier n
                      (Initialized refs sc)) = Some sel ->
       In sel cs.
Proof.
  split.
  - simpl. destruct (select provider parse_identifier cands refs) as [c | sel] eqn:E.
    + destruct (select_failure _ _ _ E) as [-> H]. now repeat split.
    + destruct (select_member _ _ _ E) as [Hin Hid]. now repeat split.
  - intros n cs sel Hc Hsel.
    assert (Hs : sound N (steps provider schema N subject_path parse_identifier n
                          (Initialized refs sc)))
      by (apply steps_sound; reflexivity).
    unfold sound in Hs. rewrite Hc, Hsel in Hs. apply Hs.
Qed.





End Stages.

(** *** The stages on the test doubles *)

Example demo_pipeline_run :
  run (demo_provider "2") demo_schema 4 "/out" decimal demo_refs "a scenario"
  = VideoRendered demo_refs "a scenario"
      (number 0 (repeat (MkImage 64 64 "px") 4))
      (MkCandidate 2 (MkImage 64 64 "px"))
      (MkImage 1024 576 "px") "clip".
Proof. reflexivity. Qed.

Example demo_pipeline_short :
  run short_provider demo_schema 4 "/out" decimal demo_refs "a scenario"
  = Failed Generating GenerationFailed.
Proof. reflexivity. Qed.

Example demo_pipeline_out_of_range :
  run (demo_provider "4") demo_schema 4 "/out" decimal demo_refs "a scenario"
  = Failed Selecting SelectionAmbiguous.
Proof. reflexivity. Qed.

Example demo_pipeline_unparseable :
  run (demo_provider "the second one") demo_schema 4 "/out" decimal demo_refs "a scenario"
  = Failed Selecting SelectionAmbiguous.
Proof. reflexivity. Qed.

Lemma generator_all_or_nothing_witness :
  exists cands,
    candidates_of (run (demo_provider "2") demo_schema 4 "/out" decimal demo_refs
                     "a scenario") = Some cands
    /\ length cands = 4.
Proof.
  eexists. split; [reflexivity|].
  apply (proj2 (generator_all_or_nothing (demo_provider "2") demo_schema 4 "/out"
                  decimal demo_refs "a scenario" "a description") 6).
  reflexivity.
Defined.

Lemma selector_returns_member_witness :
  In (MkCandidate 2 (MkImage 64 64 "px"))
     (number 0 (repeat (MkImage 64 64 "px") 4)).
Proof.
  apply (proj2 (selector_returns_member (demo_provider "2") demo_schema 4 "/out"
                  decimal demo_refs "a scenario" []) 6); reflexivity.
Defined.




End PipelineFacts.

(** ** More on the configuration cell *)

Module ValidationMore.
Import Path Disk Py Notebook Demo Observe DiskFacts ValidationFacts LoaderFacts.

(** The outcome of validation, whatever the disk looks like. *)
Lemma load_reference_set_cases (loc : string) (w : world) :
  (isdir (disk w) loc = false /\ load_reference_set loc w = inl (not_a_directory loc))
  \/ exists es,
       stat (disk w) loc = Some (Dir es)
       /\ load_reference_set loc w =
          match map (join loc) (filter (fun f => isfile (disk w) (join loc f)) (names es)) with
          | [] => inl (no_image_files loc)
          | p :: ps => inr (p :: ps)
          end.
Proof.
  unfold load_reference_set.
  destruct (stat (disk w) loc) as [[c| |es]|] eqn:Hd.
  1,2,4: left; assert (Hi : isdir (disk w) loc = false)
           by (unfold isdir; now rewrite Hd);
         split; [exact Hi | now rewrite validate_not_dir].
  right. exists es. split; [reflexivity|].
  pose proof (validate_dir loc w es Hd) as Hv. cbv zeta in Hv. rewrite Hv.
  destruct (map (join loc) _) as [|p ps]; [reflexivity|].
  cbn [objects]. now rewrite nth_middle.
Qed.

(** X1.  A list that validation returns is not empty, and every path in it
    names a regular file: [os.path.isfile] answers true for it on the disk
    as it is.  Nothing is assumed about the disk. *)
Theorem loaded_paths_are_files (loc : string) (w : world) (files : list string) :
  load_reference_set loc w = inr files ->
  files <> [] /\ Forall (fun p => isfile (disk w) p = true) files.
Proof.
  intros H.
  destruct (load_reference_set_cases loc w) as [[_ E] | (es & _ & E)];
    rewrite E in H; [discriminate H|].
  assert (Hall : Forall (fun p => isfile (disk w) p = true)
                   (map (join loc)
                      (filter (fun f => isfile (disk w) (join loc f)) (names es)))).
  { apply Forall_forall. intros p Hp. apply in_map_iff in Hp.
    destruct Hp as (f & <- & Hf). now apply filter_In in Hf. }
  destruct (map (join loc) _) as [|p ps]; [discriminate H|].
  injection H as <-. split; [discriminate | assumption].
Qed.

Lemma loaded_paths_are_files_witness :
  Forall (fun p => isfile demo_disk p = true)
    ["/data/refs/a.png"; "/data/refs/notes.txt"; "/data/refs/b.jpg"].
Proof.
  exact (proj2 (loaded_paths_are_files "/data/refs" demo_world
                  ["/data/refs/a.png"; "/data/refs/notes.txt"; "/data/refs/b.jpg"]
                  eq_refl)).
Defined.

(** X2.  Validation only reads.  Whether it succeeds or raises, the disk
    is as before, every list object that existed is as before, and at
    most one list object has been added. *)
Theorem validation_is_read_only (loc : string) (w : world) :
  disk (snd (validate_inputs loc w)) = disk w
  /\ exists new,
       objects (snd (validate_inputs loc w)) = objects w ++ new
       /\ length new <= 1.
Proof.
  destruct (stat (disk w) loc) as [[c| |es]|] eqn:Hd.
  1,2,4: rewrite validate_not_dir by (unfold isdir; now rewrite Hd);
         split; [reflexivity|]; exists []; simpl; rewrite app_nil_r; auto.
  pose proof (validate_dir loc w es Hd) as Hv. cbv zeta in Hv. rewrite Hv.
  destruct (map (join loc) _) as [|p ps]; simpl;
    (split; [reflexivity|]); eexists; (split; [reflexivity|]); simpl; lia.
Qed.

(** X3.  The line "Found n reference images in '...'" is printed exactly
    when validation succeeds; it is then the last thing validation does,
    and [n] is the number of paths in the list.  A validation that raises
    prints nothing. *)
Theorem found_line_reports_count (loc : string) (w : world) :
  exists t,
    trace (snd (validate_inputs loc w)) = trace w ++ t
    /\ match fst (validate_inputs loc w) with
       | inr image_files =>
           exists t0,
             t = t0 ++ [Print (found_message
                                 (length (nth image_files
                                            (objects (snd (validate_inputs loc w))) []))
                                 loc)]
             /\ forall line, ~ In (Print line) t0
       | inl _ => forall line, ~ In (Print line) t
       end.
Proof.
  assert (Hscan : forall (l : list string) line,
            ~ In (Print line)
                (OsIsdir loc :: OsListdir loc :: map (fun f => OsIsfile (join loc f)) l)).
  { intros l line [H | [H | H]]; try discriminate H.
    apply in_map_iff in H. destruct H as (f & H & _). discriminate H. }
  destruct (stat (disk w) loc) as [[c| |es]|] eqn:Hd.
  1,2,4: rewrite validate_not_dir by (unfold isdir; now rewrite Hd);
         exists [OsIsdir loc]; split; [reflexivity|];
         intros line [H | []]; discriminate H.
  pose proof (validate_dir loc w es Hd) as Hv. cbv zeta in Hv. rewrite Hv.
  destruct (map (join loc) _) as [|p ps]; cbn [fst snd trace objects].
  - eexists. split; [reflexivity|]. apply Hscan.
  - eexists. split; [reflexivity|]. eexists. split; [|apply Hscan].
    now rewrite nth_middle.
Qed.

End ValidationMore.

(** ** The shape of the reference paths *)

Module PathShape.
Import Path Disk Py Notebook Demo Observe DiskFacts ValidationFacts LoaderFacts.

Lemma append_cancel (a b c : string) : (a ++ b)%string = (a ++ c)%string -> b = c.
Proof. induction a as [|x a IH]; simpl; [auto | intros [= H]; auto]. Qed.

Lemma prefix_append (a b : string) : String.prefix a (a ++ b) = true.
Proof.
  induction a as [|x a IH]; simpl; [now destruct b|].
  destruct (ascii_dec x x) as [_ | N]; [assumption | now destruct N].
Qed.

Lemma join_injective (loc f g : string) :
  startswith_sep f = false -> startswith_sep g = false ->
  join loc f = join loc g -> f = g.
Proof.
  intros Hf Hg. unfold join. rewrite Hf, Hg.
  destruct (is_empty loc || endswith_sep loc); intros H; apply append_cancel in H;
    [assumption | now injection H].
Qed.

Lemma distinct_NoDup (l : list string) : distinct l = true -> NoDup l.
Proof.
  induction l as [|x l IH]; simpl; [constructor|].
  intros [Hx Hl]%andb_true_iff. constructor; [|now apply IH].
  intros Hin. apply negb_true_iff in Hx.
  assert (existsb (String.eqb x) l = true); [|congruence].
  apply existsb_exists. exists x. split; [assumption | apply String.eqb_refl].
Qed.

Lemma regular_files_names (es : list (string * node)) (f : string) :
  In f (regular_files es) -> In f (names es).
Proof.
  unfold regular_files, names. intros H. apply in_map_iff in H.
  destruct H as (e & <- & He). apply filter_In in He. now apply in_map.
Qed.

Lemma regular_files_NoDup (es : list (string * node)) :
  NoDup (names es) -> NoDup (regular_files es).
Proof.
  unfold regular_files, names.
  induction es as [|[f n] es IH]; simpl; [constructor|].
  intros H. inversion H as [|? ? Hnotin Hrest]; subst.
  destruct (is_regular n); simpl; [|now apply IH].
  constructor; [|now apply IH].
  intros Hin. apply Hnotin. now apply (regular_files_names es).
Qed.

Lemma map_NoDup_on {A B : Type} (f : A -> B) (l : list A) :
  (forall x y, In x l -> In y l -> f x = f y -> x = y) ->
  NoDup l -> NoDup (map f l).
Proof.
  induction l as [|a l IH]; simpl; intros Hinj H; [constructor|].
  inversion H as [|? ? Hnotin Hrest]; subst. constructor.
  - intros Hin. apply in_map_iff in Hin. destruct Hin as (b & E & Hb).
    apply Hnotin. rewrite (Hinj a b); auto.
  - apply IH; auto.
Qed.

(** What a successful load on a well-formed disk returns, with the
    directory it came from. *)
Lemma load_reference_set_ok (w : world) (loc : string) (files : list string) :
  wf (disk w) = true ->
  load_reference_set loc w = inr files ->
  exists es,
    stat (disk w) loc = Some (Dir es)
    /\ files = map (join loc) (regular_files es)
    /\ forallb valid_name (names es) = true
    /\ distinct (names es) = true.
Proof.
  intros Hwf H. rewrite (load_reference_set_eq _ _ Hwf) in H.
  destruct (stat (disk w) loc) as [[c| |es]|] eqn:Hd; try discriminate H.
  exists es. pose proof (stat_wf _ _ _ Hwf Hd) as Hes.
  apply wf_node_dir in Hes. destruct Hes as (Hv & Hdist & _).
  destruct (regular_files es); [discriminate H|]. injection H as <-. auto.
Qed.

Lemma regular_files_plain (es : list (string * node)) (f : string) :
  forallb valid_name (names es) = true ->
  In f (regular_files es) -> startswith_sep f = false.
Proof.
  intros Hv Hin. apply regular_files_names in Hin.
  rewrite forallb_forall in Hv. apply Hv in Hin.
  apply valid_name_inv in Hin. now apply has_sep_startswith.
Qed.

(** X4.  On a well-formed disk the list validation returns holds no path
    twice. *)
Theorem loaded_paths_are_distinct (w : world) (loc : string) (files : list string) :
  wf (disk w) = true ->
  load_reference_set loc w = inr files ->
  NoDup files.
Proof.
  intros Hwf H.
  destruct (load_reference_set_ok _ _ _ Hwf H) as (es & _ & -> & Hv & Hdist).
  apply map_NoDup_on.
  - intros f g Hf Hg. apply join_injective; now apply (regular_files_plain es).
  - now apply regular_files_NoDup, distinct_NoDup.
Qed.

Lemma loaded_paths_are_distinct_witness :
  NoDup ["refs/a.png"; "refs/notes.txt"; "refs/b.jpg"].
Proof.
  exact (loaded_paths_are_distinct demo_world "refs"
           ["refs/a.png"; "refs/notes.txt"; "refs/b.jpg"] eq_refl eq_refl).
Defined.

(** X5.  On a well-formed disk every path validation returns is the
    location as it was given, followed by at most one separator and the
    name of a directory entry: a relative location gives relative paths,
    and nothing is normalised or made absolute. *)
Theorem loaded_paths_extend_location (w : world) (loc : string) (files : list string) :
  wf (disk w) = true ->
  load_reference_set loc w = inr files ->
  forall p, In p files ->
    String.prefix loc p = true
    /\ exists f,
         valid_name f = true
         /\ (p = (loc ++ f)%string \/ p = (loc ++ String sep f)%string).
Proof.
  intros Hwf H p Hp.
  destruct (load_reference_set_ok _ _ _ Hwf H) as (es & _ & -> & Hv & _).
  apply in_map_iff in Hp. destruct Hp as (f & <- & Hf).
  pose proof (regular_files_plain es f Hv Hf) as Hplain.
  assert (Hvalid : valid_name f = true).
  { rewrite forallb_forall in Hv. now apply Hv, regular_files_names. }
  unfold join. rewrite Hplain.
  destruct (is_empty loc || endswith_sep loc);
    (split; [apply prefix_append | exists f; auto]).
Qed.

Lemma loaded_paths_extend_location_witness :
  String.prefix "../data/./refs" "../data/./refs/b.jpg" = true
  /\ exists f,
       valid_name f = true
       /\ ("../data/./refs/b.jpg" = ("../data/./refs" ++ f)%string
           \/ "../data/./refs/b.jpg" = ("../data/./refs" ++ String sep f)%string).
Proof.
  apply (loaded_paths_extend_location demo_world "../data/./refs"
           ["../data/./refs/a.png"; "../data/./refs/notes.txt"; "../data/./refs/b.jpg"]
           eq_refl eq_refl).
  simpl. auto.
Defined.

End PathShape.

(** ** More on the display cells and on whole runs *)

Module RunMore.
Import Path Disk Py Notebook Demo Observe ValidationFacts ValidationOrder
  QuietFacts DisplayFacts RunFacts.

(** X6.  The loop over the candidate images does not go past a path
    that [Image] raises for: the cell raises, for that path or for one
    before it, and neither that image nor any after it is shown; those
    that are shown are shown at width 256.  The disk and the list objects
    are untouched. *)
Theorem display_stops_at_first_failure (shows : image_oracle)
    (pre post : list string) (p : string) (e : exn) :
  forall w,
    shows (disk w) p = Some e ->
    exists e' t,
      cell_display_candidates shows (pre ++ p :: post) w = (inl e', logged w t)
      /\ display_failure shows (disk w) (pre ++ [p]) = Some e'
      /\ forall q width, In (DisplayImage q width) t -> In q pre /\ width = 256.
Proof.
  induction pre as [|x pre IH]; intros w Hp; simpl; unfold bind;
    rewrite display_image_eq.
  - rewrite Hp. exists e, []. rewrite logged_nil.
    split; [reflexivity|]. split; [reflexivity|]. intros q width [].
  - destruct (shows (disk w) x) as [ex|] eqn:Hx.
    + exists ex, []. rewrite logged_nil.
      split; [reflexivity|]. split; [reflexivity|]. intros q width [].
    + destruct (IH (logged w [DisplayImage x 256]) Hp) as (e' & t & -> & Hf & Ht).
      exists e', ([DisplayImage x 256] ++ t).
      split; [now rewrite logged_logged|]. split; [exact Hf|].
      intros q width [[= <- <-] | H]; [split; [now left | reflexivity]|].
      destruct (Ht _ _ H) as [Hq Hw]. split; [now right | assumption].
Qed.

Lemma display_stops_at_first_failure_witness :
  exists e' t,
    cell_display_candidates demo_image
      (["/out/c0.png"] ++ "/out/gone.png" :: ["/out/c1.png"]) demo_world
    = (inl e', logged demo_world t)
    /\ display_failure demo_image (disk demo_world) (["/out/c0.png"] ++ ["/out/gone.png"])
       = Some e'
    /\ forall q width, In (DisplayImage q width) t -> In q ["/out/c0.png"] /\ width = 256.
Proof.
  exact (display_stops_at_first_failure demo_image ["/out/c0.png"] ["/out/c1.png"]
           "/out/gone.png" (FileNotFoundError "/out/gone.png") demo_world eq_refl).
Defined.

Section Run.

Variable INPUT_DIR : string.
Variable gen : ref -> string -> stage (string * string * list string).
Variable vid : string -> string -> stage (option string).
Variable shows : image_oracle.

(** X7.  A video path that is [None], empty, or names nothing on the disk
    is not an error.  When [generate_video_from_best_image] returns such a
    value, the last two cells log "Successfully generated video: ..."
    with it, print the fallback message and end normally; [os.path.exists]
    is asked only about a non-empty string, and no file is opened. *)
Theorem missing_video_is_not_an_error (person_path outpainted_image_path : string)
    (w : world) (video_path : option string) (d : filesystem) (h : heap) :
  vid person_path outpainted_image_path (disk w) (objects w) = (inr video_path, d, h) ->
  match video_path with
  | None => True
  | Some p => is_empty p = true \/ exists_ d p = false
  end ->
  bind (cell_video vid person_path outpainted_image_path) cell_display_video w
  = (inr tt,
     MkWorld d h
       (trace w
        ++ [LogInfo log_step2;
            CallGenerateVideo person_path outpainted_image_path;
            LogInfo (log_video video_path)]
        ++ match video_path with
           | None => []
           | Some p => if is_empty p then [] else [OsExists p]
           end
        ++ [Print fallback_message])).
Proof.
  intros Hv Hguard. unfold bind.
  rewrite (cell_video_eq vid person_path outpainted_image_path w). cbv zeta.
  rewrite Hv, cell_display_video_eq. cbn [disk objects trace logged].
  destruct video_path as [p|]; unfold logged; cbn [disk objects trace].
  - destruct (is_empty p) eqn:He.
    + now rewrite <- !app_assoc.
    + destruct Hguard as [H | H]; [discriminate H|]. rewrite H.
      now rewrite <- !app_assoc.
  - now rewrite <- !app_assoc.
Qed.

(** X8.  The notebook's own code writes nothing to the disk: a property
    of the disk that both stage functions preserve still holds at the end
    of the run, however the run ends. *)
Theorem run_writes_through_stages_only (P : filesystem -> Prop) (w : world) :
  (forall r s d h, P d -> P (snd (fst (gen r s d h)))) ->
  (forall pp op d h, P d -> P (snd (fst (vid pp op d h)))) ->
  P (disk w) ->
  P (disk (snd (run_all INPUT_DIR gen vid shows w))).
Proof.
  intros Hgen Hvid HP.
  destruct (validate_inputs_frame INPUT_DIR w) as (_ & _ & _ & Hd).
  rewrite (run_all_eq INPUT_DIR gen vid shows w). cbv zeta.
  destruct (validate_inputs INPUT_DIR w) as [[e | r] w1]; cbn [fst snd] in Hd |- *;
    rewrite <- Hd in HP; [assumption|].
  pose proof (Hgen r SCENARIO (disk w1) (objects w1) HP) as H2.
  destruct (gen r SCENARIO (disk w1) (objects w1)) as [[[e | [[pp op] cs]] d2] h2];
    cbn [fst snd disk] in H2 |- *; [assumption|].
  destruct (display_failure shows d2 (cs ++ [op])) as [e|]; cbn [fst snd disk];
    [assumption|].
  pose proof (Hvid pp op d2 h2 H2) as H3.
  destruct (vid pp op d2 h2) as [[[e | vp] d3] h3]; cbn [fst snd disk] in H3 |- *;
    [assumption|].
  match goal with
  | |- context [cell_display_video vp ?W] =>
      destruct (quiet_cell_display_video vp W) as (t & -> & _)
  end.
  assumption.
Qed.

(** X9.  A run that ends normally went all the way: validation
    succeeded, [generate_images_and_select_best] returned, [Image] raised
    for none of the candidate paths nor for the outpainted path,
    [generate_video_from_best_image] returned, and the disk and the list
    objects at the end are the ones it left. *)
Theorem normal_end_means_all_stages_returned (w : world) :
  fst (run_all INPUT_DIR gen vid shows w) = inr tt ->
  exists image_files w1 person_path outpainted_image_path candidate_image_paths
         d2 h2 video_path d3 h3,
    validate_inputs INPUT_DIR w = (inr image_files, w1)
    /\ gen image_files SCENARIO (disk w1) (objects w1)
       = (inr (person_path, outpainted_image_path, candidate_image_paths), d2, h2)
    /\ display_failure shows d2 (candidate_image_paths ++ [outpainted_image_path]) = None
    /\ vid person_path outpainted_image_path d2 h2 = (inr video_path, d3, h3)
    /\ disk (snd (run_all INPUT_DIR gen vid shows w)) = d3
    /\ objects (snd (run_all INPUT_DIR gen vid shows w)) = h3.
Proof.
  rewrite (run_all_eq INPUT_DIR gen vid shows w). cbv zeta.
  destruct (validate_inputs INPUT_DIR w) as [[e | r] w1] eqn:Hval; [discriminate|].
  destruct (gen r SCENARIO (disk w1) (objects w1))
    as [[[e | [[pp op] cs]] d2] h2] eqn:Hgen; [discriminate|].
  destruct (display_failure shows d2 (cs ++ [op])) as [e|] eqn:Hshow; [discriminate|].
  destruct (vid pp op d2 h2) as [[[e | vp] d3] h3] eqn:Hvid; [discriminate|].
  intros _.
  match goal with
  | |- context [cell_display_video vp ?W] =>
      destruct (quiet_cell_display_video vp W) as (t & Ht & _)
  end.
  exists r, w1, pp, op, cs, d2, h2, vp, d3, h3. rewrite Ht.
  split; [reflexivity|]. split; [assumption|]. split; [assumption|].
  split; [assumption|]. split; reflexivity.
Qed.

End Run.

Lemma missing_video_is_not_an_error_witness :
  fst (bind (cell_video (fun _ _ d h => (inr None, d, h)) "/out" "/out/wide.png")
         cell_display_video demo_world)
  = inr tt.
Proof.
  rewrite (missing_video_is_not_an_error (fun _ _ d h => (inr None, d, h))
             "/out" "/out/wide.png" demo_world None demo_disk [] eq_refl I).
  reflexivity.
Defined.

Lemma run_writes_through_stages_only_witness :
  disk (snd (run_all "refs" demo_generate demo_video demo_image demo_world)) = demo_disk.
Proof.
  apply (run_writes_through_stages_only "refs" demo_generate demo_video demo_image
           (fun d => d = demo_disk) demo_world).
  - intros r s d h H. exact H.
  - intros pp op d h H. exact H.
  - reflexivity.
Defined.

Lemma normal_end_means_all_stages_returned_witness :
  exists video_path d3 h3,
    demo_video "/out" "/out/wide.png" demo_disk
      [["refs/a.png"; "refs/notes.txt"; "refs/b.jpg"]; [SCENARIO]]
    = (inr video_path, d3, h3)
    /\ disk (snd (run_all "refs" demo_generate demo_video demo_image demo_world)) = d3.
Proof.
  destruct (normal_end_means_all_stages_returned "refs" demo_generate demo_video
              demo_image demo_world eq_refl)
    as (r & w1 & pp & op & cs & d2 & h2 & vp & d3 & h3 & Hv & Hg & _ & Hvid & Hd & _).
  injection Hv as <- <-. injection Hg as <- <- <- <- <-.
  exists vp, d3, h3. split; [exact Hvid | exact Hd].
Defined.

End RunMore.
